(** * The wallet crypter and the encrypted key store (src/wallet/crypter.cpp)

    A shallow embedding of [CCrypter] and [CCryptoKeyStore].  The file under
    study is [crypter.cpp]; the headers and the classes it builds on
    ([crypter.h], [crypto/aes.h], [crypto/sha512.h], [key.h], [pubkey.h],
    [keystore.h]) are taken either as operations of a record of
    collaborators or as small definitions modelled from the specification,
    each of them marked as such. *)

From Stdlib Require Import List ZArith NArith Lia Bool Arith Sorted.
From Stdlib Require Import Strings.Byte.
Import ListNotations.

Set Implicit Arguments.

(* ================================================================= *)
(** ** Bytes and raw memory *)

Definition bytes := list byte.

(** [SecureString], [CKeyingMaterial] and [std::vector<unsigned char>] differ
    only in their allocator; all three are byte sequences here. *)
Definition SecureString := bytes.
Definition CKeyingMaterial := bytes.

Definition zeros (n : nat) : bytes := repeat x00 n.

(** [memory_cleanse(p, n)] over a whole buffer: every byte becomes zero. *)
Definition memory_cleanse (buf : bytes) : bytes := zeros (length buf).

(** [memcpy(dst, src, n)]: the first [n] bytes of [dst] are replaced by the
    first [n] bytes of [src]. *)
Definition memcpy (dst src : bytes) (n : nat) : bytes :=
  firstn n src ++ skipn n dst.

Definition bits8 : Type :=
  (bool * (bool * (bool * (bool * (bool * (bool * (bool * bool)))))))%type.

Definition bits_xor (a b : bits8) : bits8 :=
  let '(a0, (a1, (a2, (a3, (a4, (a5, (a6, a7))))))) := a in
  let '(b0, (b1, (b2, (b3, (b4, (b5, (b6, b7))))))) := b in
  (xorb a0 b0, (xorb a1 b1, (xorb a2 b2, (xorb a3 b3,
  (xorb a4 b4, (xorb a5 b5, (xorb a6 b6, xorb a7 b7))))))).

(** The C operator [^] on [unsigned char]. *)
Definition byte_xor (a b : byte) : byte :=
  Byte.of_bits (bits_xor (Byte.to_bits a) (Byte.to_bits b)).

(** [dst[i] ^= src[i]] over a block. *)
Fixpoint xor_bytes (a b : bytes) : bytes :=
  match a, b with
  | x :: a', y :: b' => byte_xor x y :: xor_bytes a' b'
  | _, _ => []
  end.

Definition byte_of_nat (n : nat) : byte :=
  match Byte.of_nat n with Some b => b | None => x00 end.

Definition bytes_eq_dec : forall a b : bytes, {a = b} + {a <> b} :=
  list_eq_dec Byte.byte_eq_dec.

Definition bytes_eqb (a b : bytes) : bool :=
  if bytes_eq_dec a b then true else false.

(* ================================================================= *)
(** ** Constants of [crypter.h] and of the hash and cipher headers *)

(** Modelled from the spec: [crypter.h] is not part of the sources; the
    specification fixes the master key at 32 bytes, the salt at 8 bytes and
    the IV at 16 bytes. *)
Definition WALLET_CRYPTO_KEY_SIZE : nat := 32.
Definition WALLET_CRYPTO_SALT_SIZE : nat := 8.
Definition WALLET_CRYPTO_IV_SIZE : nat := 16.

(** Modelled from the spec: the AES block is 16 bytes. *)
Definition AES_BLOCKSIZE : nat := 16.

(** C [int] is 32 bits wide; an [unsigned int] is converted to [int] by
    two's-complement wrap-around. *)
Definition INT_MAX : Z := 2147483647.
Definition uint_to_int (u : Z) : Z :=
  let r := (u mod 2 ^ 32)%Z in
  if (r <=? INT_MAX)%Z then r else (r - 2 ^ 32)%Z.

(* ================================================================= *)
(** ** Keys, public keys and the external primitives *)

(** A 20-byte [CKeyID] read as a number; [std::map] orders its entries by
    the identifier. *)
Definition CKeyID := N.

(** A serialized public key. *)
Definition CPubKey := bytes.

(** A 32-byte hash value. *)
Definition uint256 := bytes.

(** Modelled from the spec: [key.h] is not part of the sources.  A private
    key is a byte string (32 bytes when well formed) with a compression
    flag; [CKey::Set] stores both. *)
Record CKey : Type := mkCKey {
  keydata : bytes;
  fCompressed : bool
}.

Definition CKey_Set (vch : bytes) (fCompressedIn : bool) : CKey :=
  mkCKey vch fCompressedIn.

(** The primitives the file consumes and does not define: the two hash
    functions, the AES-256 block transform in both directions, public-key
    derivation and the accessors of a public key. *)
Record Collaborators : Type := mkCollaborators {
  SHA512 : bytes -> bytes;
  SHA256 : bytes -> bytes;
  AES256Encrypt : bytes -> bytes -> bytes;   (* key, 16-byte block *)
  AES256Decrypt : bytes -> bytes -> bytes;
  GetPubKey_of : CKey -> CPubKey;            (* CKey::GetPubKey *)
  GetID : CPubKey -> CKeyID;                 (* CPubKey::GetID *)
  GetHash : CPubKey -> uint256;              (* CPubKey::GetHash *)
  IsCompressed : CPubKey -> bool             (* CPubKey::IsCompressed *)
}.

(** What the specification assumes of those primitives. *)
Record CollaboratorLaws (env : Collaborators) : Prop := mkLaws {
  aes_block_length : forall k b,
    length k = 32 -> length b = 16 -> length (AES256Encrypt env k b) = 16;
  aes_block_inverse : forall k b,
    length k = 32 -> length b = 16 ->
    AES256Decrypt env k (AES256Encrypt env k b) = b;
  pubkey_compression : forall k,
    IsCompressed env (GetPubKey_of env k) = fCompressed k;
  pubkey_hash_length : forall p, length (GetHash env p) = 32
}.

Section Crypter.

Variable env : Collaborators.

(** Modelled from the spec: [CKey::VerifyPubKey] checks that the public key
    derived from the private key equals the given one. *)
Definition CKey_VerifyPubKey (key : CKey) (pub : CPubKey) : bool :=
  bytes_eqb (GetPubKey_of env key) pub.

(* ----------------------------------------------------------------- *)
(** *** The streaming SHA-512 object *)

(** Modelled from the spec: [CSHA512] accumulates what is written to it and
    [Finalize] yields the digest of the accumulated bytes. *)
Record CSHA512 : Type := mkCSHA512 { sha_pending : bytes }.

Definition CSHA512_init : CSHA512 := mkCSHA512 [].
Definition Write (h : CSHA512) (data : bytes) : CSHA512 :=
  mkCSHA512 (sha_pending h ++ data).
Definition Finalize (h : CSHA512) : bytes := SHA512 env (sha_pending h).
Definition Reset (h : CSHA512) : CSHA512 := CSHA512_init.

(* ----------------------------------------------------------------- *)
(** *** [CCrypter::BytesToKeySHA512AES] *)

(** [for (int i = 0; i != count - 1; i++)
       di.Reset().Write(buf, sizeof(buf)).Finalize(buf);]
    with the number of remaining rounds as the recursion argument. *)
Fixpoint sha512_rounds (n : nat) (di : CSHA512) (buf : bytes) : bytes :=
  match n with
  | O => buf
  | S n' => sha512_rounds n' di (Finalize (Write (Reset di) buf))
  end.

(** The output pointers [key] and [iv] may be null ([None]).  The result is
    the returned [int] and the two buffers after the call.  The loop
    counter is an [int] compared with [!=], so it runs
    [(count - 1) mod 2^32] times. *)
Definition BytesToKeySHA512AES (chSalt : bytes) (strKeyData : SecureString)
    (count : Z) (key iv : option bytes) : Z * option bytes * option bytes :=
  match key, iv with
  | Some k, Some v =>
      if (count =? 0)%Z then (0%Z, key, iv)
      else
        let di := Write CSHA512_init strKeyData in
        let di := if negb (length chSalt =? 0) then Write di chSalt else di in
        let buf := Finalize di in
        let buf := sha512_rounds (Z.to_nat ((count - 1) mod 2 ^ 32)) di buf in
        (Z.of_nat WALLET_CRYPTO_KEY_SIZE,
         Some (memcpy k buf WALLET_CRYPTO_KEY_SIZE),
         Some (memcpy v (skipn WALLET_CRYPTO_KEY_SIZE buf) WALLET_CRYPTO_IV_SIZE))
  | _, _ => (0%Z, key, iv)
  end.

(* ----------------------------------------------------------------- *)
(** *** The crypter object *)

Record CCrypter : Type := mkCCrypter {
  vchKey : bytes;
  vchIV : bytes;
  fKeySet : bool
}.

(** Modelled from the spec: the constructor of [crypter.h] sizes the two
    buffers (zero filled) and clears [fKeySet]. *)
Definition CCrypter_new : CCrypter :=
  mkCCrypter (zeros WALLET_CRYPTO_KEY_SIZE) (zeros WALLET_CRYPTO_IV_SIZE) false.

Definition buffer_after (p : option bytes) (old : bytes) : bytes :=
  match p with Some b => b | None => old end.

(** [nRounds] and [nDerivationMethod] are [unsigned int] values. *)
Definition SetKeyFromPassphrase (c : CCrypter) (strKeyData : SecureString)
    (chSalt : bytes) (nRounds nDerivationMethod : Z) : bool * CCrypter :=
  if (nRounds <? 1)%Z || negb (length chSalt =? WALLET_CRYPTO_SALT_SIZE)
  then (false, c)
  else
    let '(i, k, v) :=
      if (nDerivationMethod =? 0)%Z
      then BytesToKeySHA512AES chSalt strKeyData (uint_to_int nRounds)
             (Some (vchKey c)) (Some (vchIV c))
      else (0%Z, Some (vchKey c), Some (vchIV c)) in
    let key' := buffer_after k (vchKey c) in
    let iv' := buffer_after v (vchIV c) in
    if negb (i =? Z.of_nat WALLET_CRYPTO_KEY_SIZE)%Z
    then (false, mkCCrypter (memory_cleanse key') (memory_cleanse iv') (fKeySet c))
    else (true, mkCCrypter key' iv' true).

Definition SetKey (c : CCrypter) (chNewKey : CKeyingMaterial) (chNewIV : bytes)
    : bool * CCrypter :=
  if negb (length chNewKey =? WALLET_CRYPTO_KEY_SIZE)
     || negb (length chNewIV =? WALLET_CRYPTO_IV_SIZE)
  then (false, c)
  else (true, mkCCrypter (memcpy (vchKey c) chNewKey (length chNewKey))
                         (memcpy (vchIV c) chNewIV (length chNewIV))
                         true).

(* ----------------------------------------------------------------- *)
(** *** AES-256-CBC with PKCS#7 padding *)

(** [std::vector::resize]: truncate, or grow with zero bytes. *)
Definition resize (n : nat) (v : bytes) : bytes :=
  firstn n v ++ zeros (n - length v).

(** Modelled from the spec: PKCS#7 pads with [p] bytes of value [p], where
    [p] is what is missing to the next multiple of the block size and a
    whole block when nothing is missing. *)
Definition pkcs7_pad (data : bytes) : bytes :=
  let padsize := AES_BLOCKSIZE - length data mod AES_BLOCKSIZE in
  data ++ repeat (byte_of_nat padsize) padsize.

(** Modelled from the spec: cipher block chaining over [n] blocks; every
    plaintext block is xored with the previous ciphertext block (the IV for
    the first one) before the block transform. *)
Fixpoint cbc_encrypt_blocks (n : nat) (key prev data : bytes) : bytes :=
  match n with
  | O => []
  | S n' =>
      let c := AES256Encrypt env key
                 (xor_bytes (firstn AES_BLOCKSIZE data) prev) in
      c ++ cbc_encrypt_blocks n' key c (skipn AES_BLOCKSIZE data)
  end.

Fixpoint cbc_decrypt_blocks (n : nat) (key prev data : bytes) : bytes :=
  match n with
  | O => []
  | S n' =>
      let c := firstn AES_BLOCKSIZE data in
      xor_bytes (AES256Decrypt env key c) prev
        ++ cbc_decrypt_blocks n' key c (skipn AES_BLOCKSIZE data)
  end.

(** Modelled from the spec: [AES256CBCEncrypt::Encrypt(data, size, out)]
    with padding on; it writes the ciphertext to [out] and returns the
    number of bytes written, [16 * (size / 16 + 1)]. *)
Definition AES256CBCEncrypt (key iv data out : bytes) : nat * bytes :=
  let padded := pkcs7_pad data in
  let written := length padded in
  let ct := cbc_encrypt_blocks (written / AES_BLOCKSIZE) key iv padded in
  (written, memcpy out ct written).

(** The padding of a decrypted buffer is well formed when its last byte [p]
    lies in [1..16] and the last [p] bytes all equal [p]. *)
Definition pkcs7_padsize (plain : bytes) : nat :=
  Byte.to_nat (last plain x00).

Definition pkcs7_valid (plain : bytes) : bool :=
  let p := pkcs7_padsize plain in
  (1 <=? p) && (p <=? AES_BLOCKSIZE) && (p <=? length plain)
  && forallb (fun b => Nat.eqb (Byte.to_nat b) p)
             (skipn (length plain - p) plain).

(** Modelled from the spec: [AES256CBCDecrypt::Decrypt(data, size, out)]
    with padding on; it writes the decrypted blocks to [out] and returns
    the length of the plaintext without its padding, or 0 when the padding
    is rejected (or when the input is not a whole number of blocks). *)
Definition AES256CBCDecrypt (key iv data out : bytes) : nat * bytes :=
  if (length data =? 0) || negb (length data mod AES_BLOCKSIZE =? 0)
  then (0, out)
  else
    let plain := cbc_decrypt_blocks (length data / AES_BLOCKSIZE) key iv data in
    let out' := memcpy out plain (length data) in
    if pkcs7_valid plain
    then (length data - pkcs7_padsize plain, out')
    else (0, out').

(* ----------------------------------------------------------------- *)
(** *** [CCrypter::Encrypt] and [CCrypter::Decrypt] *)

(** The result is [None] when the method returns false, and the final
    content of the output vector otherwise.  Every caller passes a vector
    that is empty before the call. *)
Definition Encrypt (c : CCrypter) (vchPlaintext : CKeyingMaterial)
    : option bytes :=
  if negb (fKeySet c) then None
  else
    let vchCiphertext := resize (length vchPlaintext + AES_BLOCKSIZE) [] in
    let '(nLen, vchCiphertext) :=
      AES256CBCEncrypt (vchKey c) (vchIV c) vchPlaintext vchCiphertext in
    if nLen <? length vchPlaintext then None
    else Some (resize nLen vchCiphertext).

Definition Decrypt (c : CCrypter) (vchCiphertext : bytes)
    : option CKeyingMaterial :=
  if negb (fKeySet c) then None
  else
    let nLen := length vchCiphertext in
    let vchPlaintext := resize nLen [] in
    let '(nLen, vchPlaintext) :=
      AES256CBCDecrypt (vchKey c) (vchIV c) vchCiphertext vchPlaintext in
    if nLen =? 0 then None
    else Some (resize nLen vchPlaintext).

(** The ciphertext of a plaintext under a key and an IV: the chained
    blocks of the padded plaintext. *)
Definition ciphertext_of (K V : bytes) (X : CKeyingMaterial) : bytes :=
  cbc_encrypt_blocks (length X / AES_BLOCKSIZE + 1) K V (pkcs7_pad X).

(* ----------------------------------------------------------------- *)
(** *** The envelope helpers *)

(** [std::vector<unsigned char> chIV(WALLET_CRYPTO_IV_SIZE);
     memcpy(&chIV[0], &nIV, WALLET_CRYPTO_IV_SIZE);] *)
Definition iv_of_uint256 (nIV : uint256) : bytes :=
  memcpy (zeros WALLET_CRYPTO_IV_SIZE) nIV WALLET_CRYPTO_IV_SIZE.

Definition EncryptSecret (vMasterKey vchPlaintext : CKeyingMaterial)
    (nIV : uint256) : option bytes :=
  let cKeyCrypter := CCrypter_new in
  let chIV := iv_of_uint256 nIV in
  let '(ok, cKeyCrypter) := SetKey cKeyCrypter vMasterKey chIV in
  if negb ok then None
  else Encrypt cKeyCrypter vchPlaintext.

Definition DecryptSecret (vMasterKey : CKeyingMaterial)
    (vchCiphertext : bytes) (nIV : uint256) : option CKeyingMaterial :=
  let cKeyCrypter := CCrypter_new in
  let chIV := iv_of_uint256 nIV in
  let '(ok, cKeyCrypter) := SetKey cKeyCrypter vMasterKey chIV in
  if negb ok then None
  else Decrypt cKeyCrypter vchCiphertext.

Definition DecryptKey (vMasterKey : CKeyingMaterial)
    (vchCryptedSecret : bytes) (vchPubKey : CPubKey) : option CKey :=
  match DecryptSecret vMasterKey vchCryptedSecret (GetHash env vchPubKey) with
  | None => None
  | Some vchSecret =>
      if negb (length vchSecret =? 32) then None
      else
        let key := CKey_Set vchSecret (IsCompressed env vchPubKey) in
        if CKey_VerifyPubKey key vchPubKey then Some key else None
  end.

End Crypter.

(* ================================================================= *)
(** ** [std::map] keyed by [CKeyID] *)

(** A [std::map<CKeyID, V>] is the list of its entries in iteration order,
    that is by increasing key. *)
Section StdMap.

Variable V : Type.

Definition std_map := list (CKeyID * V).

(** [m.find(k)] *)
Fixpoint map_find (k : CKeyID) (m : std_map) : option V :=
  match m with
  | [] => None
  | (k', v) :: m' => if N.eqb k k' then Some v else map_find k m'
  end.

(** [m[k] = v]: the entry of [k] is overwritten when there is one, and a
    new entry is put at its place in the order otherwise. *)
Fixpoint map_assign (k : CKeyID) (v : V) (m : std_map) : std_map :=
  match m with
  | [] => [(k, v)]
  | (k', v') :: m' =>
      match N.compare k k' with
      | Lt => (k, v) :: m
      | Eq => (k, v) :: m'
      | Gt => (k', v') :: map_assign k v m'
      end
  end.

Definition map_keys (m : std_map) : list CKeyID := List.map fst m.

(** The representation invariant: keys strictly increase along the list. *)
Definition map_sorted (m : std_map) : Prop :=
  StronglySorted N.lt (map_keys m).

(** [m.empty()] *)
Definition map_empty (m : std_map) : bool :=
  match m with [] => true | _ => false end.

End StdMap.

(* ================================================================= *)
(** ** The key store *)

Definition KeyMap := std_map CKey.
Definition WatchKeyMap := std_map CPubKey.
Definition CryptedKeyMap := std_map (CPubKey * bytes).

(** The members of [CBasicKeyStore] that [crypter.cpp] reads or writes,
    followed by the members of [CCryptoKeyStore].  [nStatusChanged] counts
    the [NotifyStatusChanged] signals fired so far. *)
Record CCryptoKeyStore : Type := mkStore {
  mapKeys : KeyMap;
  mapWatchKeys : WatchKeyMap;
  paperKey : SecureString;
  pinCode : SecureString;
  mapCryptedKeys : CryptedKeyMap;
  vchCryptedPaperKey : CKeyingMaterial;
  vchCryptedPinCode : CKeyingMaterial;
  vMasterKey : CKeyingMaterial;
  fUseCrypto : bool;
  fDecryptionThoroughlyChecked : bool;
  nStatusChanged : nat
}.

(** Modelled from the spec: a store begins uncrypted, with nothing in it. *)
Definition CCryptoKeyStore_new : CCryptoKeyStore :=
  mkStore [] [] [] [] [] [] [] [] false false 0.

Definition set_mapKeys (s : CCryptoKeyStore) (m : KeyMap) :=
  mkStore m (mapWatchKeys s) (paperKey s) (pinCode s) (mapCryptedKeys s)
    (vchCryptedPaperKey s) (vchCryptedPinCode s) (vMasterKey s) (fUseCrypto s)
    (fDecryptionThoroughlyChecked s) (nStatusChanged s).
Definition set_paperKey (s : CCryptoKeyStore) (p : SecureString) :=
  mkStore (mapKeys s) (mapWatchKeys s) p (pinCode s) (mapCryptedKeys s)
    (vchCryptedPaperKey s) (vchCryptedPinCode s) (vMasterKey s) (fUseCrypto s)
    (fDecryptionThoroughlyChecked s) (nStatusChanged s).
Definition set_pinCode (s : CCryptoKeyStore) (p : SecureString) :=
  mkStore (mapKeys s) (mapWatchKeys s) (paperKey s) p (mapCryptedKeys s)
    (vchCryptedPaperKey s) (vchCryptedPinCode s) (vMasterKey s) (fUseCrypto s)
    (fDecryptionThoroughlyChecked s) (nStatusChanged s).
Definition set_mapCryptedKeys (s : CCryptoKeyStore) (m : CryptedKeyMap) :=
  mkStore (mapKeys s) (mapWatchKeys s) (paperKey s) (pinCode s) m
    (vchCryptedPaperKey s) (vchCryptedPinCode s) (vMasterKey s) (fUseCrypto s)
    (fDecryptionThoroughlyChecked s) (nStatusChanged s).
Definition set_vchCryptedPaperKey (s : CCryptoKeyStore) (c : CKeyingMaterial) :=
  mkStore (mapKeys s) (mapWatchKeys s) (paperKey s) (pinCode s)
    (mapCryptedKeys s) c (vchCryptedPinCode s) (vMasterKey s) (fUseCrypto s)
    (fDecryptionThoroughlyChecked s) (nStatusChanged s).
Definition set_vchCryptedPinCode (s : CCryptoKeyStore) (c : CKeyingMaterial) :=
  mkStore (mapKeys s) (mapWatchKeys s) (paperKey s) (pinCode s)
    (mapCryptedKeys s) (vchCryptedPaperKey s) c (vMasterKey s) (fUseCrypto s)
    (fDecryptionThoroughlyChecked s) (nStatusChanged s).
Definition set_vMasterKey (s : CCryptoKeyStore) (k : CKeyingMaterial) :=
  mkStore (mapKeys s) (mapWatchKeys s) (paperKey s) (pinCode s)
    (mapCryptedKeys s) (vchCryptedPaperKey s) (vchCryptedPinCode s) k
    (fUseCrypto s) (fDecryptionThoroughlyChecked s) (nStatusChanged s).
Definition set_fUseCrypto (s : CCryptoKeyStore) (b : bool) :=
  mkStore (mapKeys s) (mapWatchKeys s) (paperKey s) (pinCode s)
    (mapCryptedKeys s) (vchCryptedPaperKey s) (vchCryptedPinCode s)
    (vMasterKey s) b (fDecryptionThoroughlyChecked s) (nStatusChanged s).
Definition set_fDecryptionThoroughlyChecked (s : CCryptoKeyStore) (b : bool) :=
  mkStore (mapKeys s) (mapWatchKeys s) (paperKey s) (pinCode s)
    (mapCryptedKeys s) (vchCryptedPaperKey s) (vchCryptedPinCode s)
    (vMasterKey s) (fUseCrypto s) b (nStatusChanged s).

(** [NotifyStatusChanged(this)] *)
Definition NotifyStatusChanged (s : CCryptoKeyStore) :=
  mkStore (mapKeys s) (mapWatchKeys s) (paperKey s) (pinCode s)
    (mapCryptedKeys s) (vchCryptedPaperKey s) (vchCryptedPinCode s)
    (vMasterKey s) (fUseCrypto s) (fDecryptionThoroughlyChecked s)
    (S (nStatusChanged s)).

(** A call either returns or dies on [assert(false)]. *)
Inductive Outcome (A : Type) : Type :=
| Aborted : Outcome A
| Returned : A -> Outcome A.
Arguments Aborted {A}.

(** The ASCII labels of the two envelopes. *)
Definition label_paperkey : bytes := [x70; x61; x70; x65; x72; x6b; x65; x79].
Definition label_pincode : bytes := [x70; x69; x6e; x63; x6f; x64; x65].

Section KeyStore.

Variable env : Collaborators.

(** Modelled from the spec: [IsCrypted] and [IsLocked] are inline members
    of [crypter.h]; the store is locked when it is encrypted and the master
    key is empty. *)
Definition IsCrypted (s : CCryptoKeyStore) : bool := fUseCrypto s.

Definition IsLocked (s : CCryptoKeyStore) : bool :=
  if negb (IsCrypted s) then false
  else length (vMasterKey s) =? 0.

(* ----------------------------------------------------------------- *)
(** *** The plain store underneath *)

(** Modelled from the spec: [keystore.cpp] is not part of the sources; the
    plain store keeps private keys by identifier, and keeps the paper key
    and the PIN code as they are given. *)
Definition CBasicKeyStore_AddKeyPubKey (s : CCryptoKeyStore) (key : CKey)
    (pubkey : CPubKey) : bool * CCryptoKeyStore :=
  (true, set_mapKeys s (map_assign (GetID env pubkey) key (mapKeys s))).

Definition CBasicKeyStore_GetKey (s : CCryptoKeyStore) (address : CKeyID)
    : option CKey :=
  map_find address (mapKeys s).

Definition CBasicKeyStore_GetPubKey (s : CCryptoKeyStore) (address : CKeyID)
    : option CPubKey :=
  match CBasicKeyStore_GetKey s address with
  | Some key => Some (GetPubKey_of env key)
  | None => map_find address (mapWatchKeys s)
  end.

Definition CBasicKeyStore_AddPaperKey (s : CCryptoKeyStore)
    (p : SecureString) : bool * CCryptoKeyStore :=
  (true, set_paperKey s p).

Definition CBasicKeyStore_GetPaperKey (s : CCryptoKeyStore)
    : option SecureString :=
  Some (paperKey s).

Definition CBasicKeyStore_AddPinCode (s : CCryptoKeyStore)
    (p : SecureString) : bool * CCryptoKeyStore :=
  (true, set_pinCode s p).

Definition CBasicKeyStore_GetPinCode (s : CCryptoKeyStore)
    : option SecureString :=
  Some (pinCode s).

(* ----------------------------------------------------------------- *)
(** *** [CCryptoKeyStore] *)

(** [SHA256(SHA256(str))], or the null [uint256] for the empty string. *)
Definition DoubleHashOfString (str : bytes) : uint256 :=
  if length str =? 0 then zeros 32
  else
    let h1hash := memcpy (zeros 32) (SHA256 env str) 32 in
    let h2hash := memcpy (zeros 32) (SHA256 env h1hash) 32 in
    h2hash.

Definition SetCrypted (s : CCryptoKeyStore) : bool * CCryptoKeyStore :=
  if fUseCrypto s then (true, s)
  else if negb (map_empty (mapKeys s)) then (false, s)
  else (true, set_fUseCrypto s true).

Definition Lock (s : CCryptoKeyStore) : bool * CCryptoKeyStore :=
  let '(ok, s) := SetCrypted s in
  if negb ok then (false, s)
  else
    let s := set_vMasterKey s [] in
    (true, NotifyStatusChanged s).

(** The loop of [Unlock] from the iterator position [mi] on; the result is
    the pair [(keyPass, keyFail)] at the exit of the loop. *)
Fixpoint Unlock_walk (vMasterKeyIn : CKeyingMaterial) (fChecked : bool)
    (mi : CryptedKeyMap) (keyPass keyFail : bool) : bool * bool :=
  match mi with
  | [] => (keyPass, keyFail)
  | (_, (vchPubKey, vchCryptedSecret)) :: rest =>
      match DecryptKey env vMasterKeyIn vchCryptedSecret vchPubKey with
      | None => (keyPass, true)
      | Some _ =>
          if fChecked then (true, keyFail)
          else Unlock_walk vMasterKeyIn fChecked rest true keyFail
      end
  end.

Definition Unlock (s : CCryptoKeyStore) (vMasterKeyIn : CKeyingMaterial)
    : Outcome (bool * CCryptoKeyStore) :=
  let '(ok, s) := SetCrypted s in
  if negb ok then Returned (false, s)
  else
    let '(keyPass, keyFail) :=
      Unlock_walk vMasterKeyIn (fDecryptionThoroughlyChecked s)
        (mapCryptedKeys s) false false in
    if keyPass && keyFail then Aborted
    else if keyFail || negb keyPass then Returned (false, s)
    else
      let s := set_vMasterKey s vMasterKeyIn in
      let s := set_fDecryptionThoroughlyChecked s true in
      Returned (true, NotifyStatusChanged s).

Definition AddCryptedPaperKey (s : CCryptoKeyStore)
    (vchCrypted : CKeyingMaterial) : bool * CCryptoKeyStore :=
  let '(ok, s) := SetCrypted s in
  if negb ok then (false, s)
  else (true, set_vchCryptedPaperKey s vchCrypted).

Definition AddPaperKey (s : CCryptoKeyStore) (p : SecureString)
    : bool * CCryptoKeyStore :=
  if negb (IsCrypted s) then CBasicKeyStore_AddPaperKey s p
  else if IsLocked s then (false, s)
  else
    match EncryptSecret env (vMasterKey s) p
            (DoubleHashOfString label_paperkey) with
    | Some vchOut => AddCryptedPaperKey s vchOut
    | None => (false, s)
    end.

Definition GetPaperKey (s : CCryptoKeyStore) : option SecureString :=
  if negb (length (paperKey s) =? 0) then CBasicKeyStore_GetPaperKey s
  else if negb (IsCrypted s) then CBasicKeyStore_GetPaperKey s
  else
    DecryptSecret env (vMasterKey s) (vchCryptedPaperKey s)
      (DoubleHashOfString label_paperkey).

(** [GetPaperKey(this->paperKey)]: the member is the output argument, and
    is written only when the call succeeds. *)
Definition DecryptPaperKey (s : CCryptoKeyStore) : CCryptoKeyStore :=
  match GetPaperKey s with
  | Some p => set_paperKey s p
  | None => s
  end.

Definition AddCryptedPinCode (s : CCryptoKeyStore)
    (vchCrypted : CKeyingMaterial) : bool * CCryptoKeyStore :=
  let '(ok, s) := SetCrypted s in
  if negb ok then (false, s)
  else (true, set_vchCryptedPinCode s vchCrypted).

Definition AddPinCode (s : CCryptoKeyStore) (p : SecureString)
    : bool * CCryptoKeyStore :=
  if negb (IsCrypted s) then CBasicKeyStore_AddPinCode s p
  else if IsLocked s then (false, s)
  else
    match EncryptSecret env (vMasterKey s) p
            (DoubleHashOfString label_pincode) with
    | Some vchOut => AddCryptedPinCode s vchOut
    | None => (false, s)
    end.

Definition GetPinCode (s : CCryptoKeyStore) : option SecureString :=
  if negb (length (pinCode s) =? 0) then CBasicKeyStore_GetPinCode s
  else if negb (IsCrypted s) then CBasicKeyStore_GetPinCode s
  else
    DecryptSecret env (vMasterKey s) (vchCryptedPinCode s)
      (DoubleHashOfString label_pincode).

Definition DecryptPinCode (s : CCryptoKeyStore) : CCryptoKeyStore :=
  match GetPinCode s with
  | Some p => set_pinCode s p
  | None => s
  end.

Definition AddCryptedKey (s : CCryptoKeyStore) (vchPubKey : CPubKey)
    (vchCryptedSecret : bytes) : bool * CCryptoKeyStore :=
  let '(ok, s) := SetCrypted s in
  if negb ok then (false, s)
  else
    (true,
     set_mapCryptedKeys s
       (map_assign (GetID env vchPubKey) (vchPubKey, vchCryptedSecret)
          (mapCryptedKeys s))).

Definition AddKeyPubKey (s : CCryptoKeyStore) (key : CKey) (pubkey : CPubKey)
    : bool * CCryptoKeyStore :=
  if negb (IsCrypted s) then CBasicKeyStore_AddKeyPubKey s key pubkey
  else if IsLocked s then (false, s)
  else
    match EncryptSecret env (vMasterKey s) (keydata key)
            (GetHash env pubkey) with
    | None => (false, s)
    | Some vchCryptedSecret => AddCryptedKey s pubkey vchCryptedSecret
    end.

Definition GetKey (s : CCryptoKeyStore) (address : CKeyID) : option CKey :=
  if negb (IsCrypted s) then CBasicKeyStore_GetKey s address
  else
    match map_find address (mapCryptedKeys s) with
    | Some (vchPubKey, vchCryptedSecret) =>
        DecryptKey env (vMasterKey s) vchCryptedSecret vchPubKey
    | None => None
    end.

Definition GetPubKey (s : CCryptoKeyStore) (address : CKeyID)
    : option CPubKey :=
  if negb (IsCrypted s) then CBasicKeyStore_GetPubKey s address
  else
    match map_find address (mapCryptedKeys s) with
    | Some (vchPubKey, _) => Some vchPubKey
    | None => CBasicKeyStore_GetPubKey s address
    end.

(** The loop of [EncryptKeys] over the entries of [mapKeys] that are left;
    a failure returns at once, with what was done so far. *)
Fixpoint EncryptKeys_loop (vMasterKeyIn : CKeyingMaterial) (rest : KeyMap)
    (s : CCryptoKeyStore) : bool * CCryptoKeyStore :=
  match rest with
  | [] => (true, s)
  | (_, key) :: rest' =>
      let vchPubKey := GetPubKey_of env key in
      match EncryptSecret env vMasterKeyIn (keydata key)
              (GetHash env vchPubKey) with
      | None => (false, s)
      | Some vchCryptedSecret =>
          let '(ok, s) := AddCryptedKey s vchPubKey vchCryptedSecret in
          if negb ok then (false, s)
          else EncryptKeys_loop vMasterKeyIn rest' s
      end
  end.

Definition EncryptKeys (s : CCryptoKeyStore) (vMasterKeyIn : CKeyingMaterial)
    : bool * CCryptoKeyStore :=
  if negb (map_empty (mapCryptedKeys s)) || IsCrypted s then (false, s)
  else
    let s := set_fUseCrypto s true in
    let '(ok, s) := EncryptKeys_loop vMasterKeyIn (mapKeys s) s in
    if negb ok then (false, s)
    else (true, set_mapKeys s []).

Definition GetCryptedPaperKey (s : CCryptoKeyStore)
    : option CKeyingMaterial :=
  if IsLocked s then None
  else if length (vchCryptedPaperKey s) =? 0 then None
  else Some (vchCryptedPaperKey s).

Definition EncryptPaperKey (s : CCryptoKeyStore)
    (vMasterKeyIn : CKeyingMaterial) : bool * CCryptoKeyStore :=
  if IsLocked s then (false, s)
  else
    match GetPaperKey s with
    | None => (false, s)
    | Some p =>
        match EncryptSecret env vMasterKeyIn p
                (DoubleHashOfString label_paperkey) with
        | Some vchOut =>
            (true, set_paperKey (set_vchCryptedPaperKey s vchOut) [])
        | None => (false, s)
        end
    end.

Definition GetCryptedPinCode (s : CCryptoKeyStore)
    : option CKeyingMaterial :=
  if IsLocked s then None
  else if length (vchCryptedPinCode s) =? 0 then None
  else Some (vchCryptedPinCode s).

Definition EncryptPinCode (s : CCryptoKeyStore)
    (vMasterKeyIn : CKeyingMaterial) : bool * CCryptoKeyStore :=
  if IsLocked s then (false, s)
  else
    match GetPinCode s with
    | None => (false, s)
    | Some p =>
        match EncryptSecret env vMasterKeyIn p
                (DoubleHashOfString label_pincode) with
        | Some vchOut =>
            (true, set_pinCode (set_vchCryptedPinCode s vchOut) [])
        | None => (false, s)
        end
    end.

End KeyStore.

(* ================================================================= *)
(** ** Runs of the store *)

(** The member functions of [CCryptoKeyStore] defined in [crypter.cpp],
    with their arguments. *)
Inductive Op : Type :=
| OpSetCrypted
| OpLock
| OpUnlock (vMasterKeyIn : CKeyingMaterial)
| OpAddCryptedPaperKey (vchCrypted : CKeyingMaterial)
| OpAddPaperKey (p : SecureString)
| OpGetPaperKey
| OpDecryptPaperKey
| OpAddCryptedPinCode (vchCrypted : CKeyingMaterial)
| OpAddPinCode (p : SecureString)
| OpGetPinCode
| OpDecryptPinCode
| OpAddKeyPubKey (key : CKey) (pubkey : CPubKey)
| OpAddCryptedKey (vchPubKey : CPubKey) (vchCryptedSecret : bytes)
| OpGetKey (address : CKeyID)
| OpGetPubKey (address : CKeyID)
| OpEncryptKeys (vMasterKeyIn : CKeyingMaterial)
| OpGetCryptedPaperKey
| OpEncryptPaperKey (vMasterKeyIn : CKeyingMaterial)
| OpGetCryptedPinCode
| OpEncryptPinCode (vMasterKeyIn : CKeyingMaterial).

Definition succeeded {A : Type} (o : option A) : bool :=
  match o with Some _ => true | None => false end.

Section Runs.

Variable env : Collaborators.

(** One call: the boolean it returns (true for the two [void] members) and
    the store afterwards. *)
Definition call (op : Op) (s : CCryptoKeyStore)
    : Outcome (bool * CCryptoKeyStore) :=
  match op with
  | OpSetCrypted => Returned (SetCrypted s)
  | OpLock => Returned (Lock s)
  | OpUnlock m => Unlock env s m
  | OpAddCryptedPaperKey c => Returned (AddCryptedPaperKey s c)
  | OpAddPaperKey p => Returned (AddPaperKey env s p)
  | OpGetPaperKey => Returned (succeeded (GetPaperKey env s), s)
  | OpDecryptPaperKey => Returned (true, DecryptPaperKey env s)
  | OpAddCryptedPinCode c => Returned (AddCryptedPinCode s c)
  | OpAddPinCode p => Returned (AddPinCode env s p)
  | OpGetPinCode => Returned (succeeded (GetPinCode env s), s)
  | OpDecryptPinCode => Returned (true, DecryptPinCode env s)
  | OpAddKeyPubKey k p => Returned (AddKeyPubKey env s k p)
  | OpAddCryptedKey p c => Returned (AddCryptedKey env s p c)
  | OpGetKey a => Returned (succeeded (GetKey env s a), s)
  | OpGetPubKey a => Returned (succeeded (GetPubKey env s a), s)
  | OpEncryptKeys m => Returned (EncryptKeys env s m)
  | OpGetCryptedPaperKey => Returned (succeeded (GetCryptedPaperKey s), s)
  | OpEncryptPaperKey m => Returned (EncryptPaperKey env s m)
  | OpGetCryptedPinCode => Returned (succeeded (GetCryptedPinCode s), s)
  | OpEncryptPinCode m => Returned (EncryptPinCode env s m)
  end.

(** A sequence of calls, one after the other; the run ends where a call
    aborts the process. *)
Fixpoint run (ops : list Op) (s : CCryptoKeyStore) : Outcome CCryptoKeyStore :=
  match ops with
  | [] => Returned s
  | op :: ops' =>
      match call op s with
      | Aborted => Aborted
      | Returned (_, s') => run ops' s'
      end
  end.

(** An [EncryptKeys] call fails part-way when it returns false although it
    passed its entry test. *)
Definition fails_partway (op : Op) (s : CCryptoKeyStore) : bool :=
  match op with
  | OpEncryptKeys m =>
      negb (negb (map_empty (mapCryptedKeys s)) || IsCrypted s)
      && negb (fst (EncryptKeys env s m))
  | _ => false
  end.

(** No call of the run is an [EncryptKeys] that fails part-way. *)
Fixpoint no_partial_encryption (ops : list Op) (s : CCryptoKeyStore) : bool :=
  match ops with
  | [] => true
  | op :: ops' =>
      negb (fails_partway op s)
      && match call op s with
         | Aborted => true
         | Returned (_, s') => no_partial_encryption ops' s'
         end
  end.

End Runs.

(** The entries [Unlock] looks at before its loop exits: up to and
    including the first one that [ok] rejects, and no further than the
    first one at all when the store was thoroughly checked before. *)
Fixpoint inspected {A : Type} (ok : A -> bool) (fChecked : bool)
    (l : list A) : list A :=
  match l with
  | [] => []
  | e :: rest =>
      if ok e then (if fChecked then [e] else e :: inspected ok fChecked rest)
      else [e]
  end.

(** Whether [DecryptKey] accepts an entry of [mapCryptedKeys]. *)
Definition entry_decrypts (env : Collaborators) (m : CKeyingMaterial)
    (e : CKeyID * (CPubKey * bytes)) : bool :=
  succeeded (DecryptKey env m (snd (snd e)) (fst (snd e))).

(** The invariant I1 of the specification. *)
Definition I1 (s : CCryptoKeyStore) : Prop :=
  fUseCrypto s = true -> mapKeys s = [].

(* ================================================================= *)
(** ** A small instance of the primitives *)

(** Stand-ins for the external primitives, small enough to compute with:
    the hashes keep a fixed-length prefix of their input, the block
    transform xors the block with the first half of the key, a public key
    is a header byte followed by the secret. *)
Definition fit (n : nat) (l : bytes) : bytes := firstn n (l ++ zeros n).

Definition toy_pubkey (k : CKey) : CPubKey :=
  (if fCompressed k then x02 else x04) :: keydata k.

Definition toy_id (p : CPubKey) : CKeyID :=
  fold_right (fun b acc => (Byte.to_N b + 256 * acc)%N) 0%N (firstn 20 p).

Definition toy_compressed (p : CPubKey) : bool :=
  match p with
  | x02 :: _ => true
  | _ => false
  end.

Definition toy : Collaborators :=
  mkCollaborators
    (fit 64) (fit 32)
    (fun k b => xor_bytes b (firstn 16 k))
    (fun k b => xor_bytes b (firstn 16 k))
    toy_pubkey toy_id (fit 32) toy_compressed.

Definition key1 : CKey := mkCKey (repeat x01 32) true.
Definition key2 : CKey := mkCKey (repeat x07 32) false.
Definition master0 : CKeyingMaterial := zeros 32.
Definition master1 : CKeyingMaterial := repeat x2a 32.
Definition salt0 : bytes := zeros 8.
Definition pass_test : SecureString := [x74; x65; x73; x74].

Definition pub1 : CPubKey := toy_pubkey key1.
Definition pub2 : CPubKey := toy_pubkey key2.

(** Two keys added to a new store; the same store after [EncryptKeys]; and
    that store with a record of foreign origin put next to its own. *)
Definition store_two_keys : CCryptoKeyStore :=
  snd (AddKeyPubKey toy
         (snd (AddKeyPubKey toy CCryptoKeyStore_new key1 pub1)) key2 pub2).

Definition store_encrypted : CCryptoKeyStore :=
  snd (EncryptKeys toy store_two_keys master0).

Definition foreign_pub : CPubKey := x02 :: repeat x09 32.


Definition store_unlocked : CCryptoKeyStore :=
  set_vMasterKey store_encrypted master0.

Definition key3 : CKey := mkCKey (repeat x05 32) true.

(** The store a run ends in (a new store when the run aborts). *)
Definition final_store (o : Outcome CCryptoKeyStore) : CCryptoKeyStore :=
  match o with
  | Returned s => s
  | Aborted => CCryptoKeyStore_new
  end.

(** Add two keys, encrypt, lock, unlock, add a third key. *)
Definition ops_bulk : list Op :=
  [OpAddKeyPubKey key1 pub1; OpAddKeyPubKey key2 pub2;
   OpEncryptKeys master0; OpLock; OpUnlock master0;
   OpAddKeyPubKey key3 (toy_pubkey key3)].

(** Add a key, then try to encrypt under a master key of 31 bytes. *)
Definition ops_short_master : list Op :=
  [OpAddKeyPubKey key1 pub1; OpEncryptKeys (zeros 31)].

(** Set a paper key on a new store, then lock the store. *)
Definition ops_paper_then_lock : list Op :=
  [OpAddPaperKey label_paperkey; OpLock].

(* ================================================================= *)
(** ** Predicates on stores, and further sample data *)

(** Every record of the map sits under the identifier of its own public
    key. *)
Definition records_keyed_by_id (env : Collaborators) (m : CryptedKeyMap)
    : Prop :=
  Forall (fun e => fst e = GetID env (fst (snd e))) m.

(** The encrypted map and the master key are used only by an encrypted
    store, a master key that is present is 32 bytes long, and only an
    encrypted store has been thoroughly checked. *)
Definition store_coherent (s : CCryptoKeyStore) : Prop :=
  (mapCryptedKeys s <> [] -> fUseCrypto s = true)
  /\ (vMasterKey s <> [] ->
      fUseCrypto s = true /\ length (vMasterKey s) = 32)
  /\ (fDecryptionThoroughlyChecked s = true -> fUseCrypto s = true).

(** The two members that fire [NotifyStatusChanged]. *)
Definition notifies (op : Op) : bool :=
  match op with
  | OpLock | OpUnlock _ => true
  | _ => false
  end.

(** The private keys held in a plain key map. *)
Definition map_values (V : Type) (m : std_map V) : list V := List.map snd m.

(** The identifier [EncryptKeys] files a private key under: that of the
    public key derived from it. *)
Definition key_id (env : Collaborators) (key : CKey) : CKeyID :=
  GetID env (GetPubKey_of env key).

(** A record is the encryption under [m] of one of the keys [all], filed
    under that key's public key and identifier. *)
Definition record_from_keys (env : Collaborators) (m : CKeyingMaterial)
    (all : list CKey) (e : CKeyID * (CPubKey * bytes)) : Prop :=
  exists key,
    In key all
    /\ fst e = key_id env key
    /\ fst (snd e) = GetPubKey_of env key
    /\ EncryptSecret env m (keydata key)
         (GetHash env (GetPubKey_of env key))
       = Some (snd (snd e)).

(** The store with two keys after [EncryptKeys], [Lock] and [Unlock]. *)
Definition store_reopened : CCryptoKeyStore :=
  final_store
    (run toy [OpEncryptKeys master0; OpLock; OpUnlock master0] store_two_keys).

Definition pin_1234 : SecureString := [x31; x32; x33; x34].

(* ================================================================= *)
(** ** Bytes: basic facts *)

Lemma byte_xor_cancel (a b : byte) : byte_xor (byte_xor a b) b = a.
Proof.
  unfold byte_xor. rewrite Byte.to_bits_of_bits.
  rewrite <- (Byte.of_bits_to_bits a) at 2.
  f_equal.
  destruct (Byte.to_bits a) as (a0 & a1 & a2 & a3 & a4 & a5 & a6 & a7).
  destruct (Byte.to_bits b) as (b0 & b1 & b2 & b3 & b4 & b5 & b6 & b7).
  simpl.
  repeat rewrite xorb_assoc. repeat rewrite xorb_nilpotent.
  repeat rewrite xorb_false_r. reflexivity.
Qed.

Lemma xor_bytes_length (a b : bytes) :
  length (xor_bytes a b) = Nat.min (length a) (length b).
Proof.
  revert b. induction a as [|x a IH]; intros [|y b]; simpl; auto.
Qed.

Lemma xor_bytes_cancel (a b : bytes) :
  length a = length b -> xor_bytes (xor_bytes a b) b = a.
Proof.
  revert b. induction a as [|x a IH]; intros [|y b] H; simpl in *;
    try discriminate; auto.
  rewrite byte_xor_cancel, IH by lia. reflexivity.
Qed.

Lemma zeros_length (n : nat) : length (zeros n) = n.
Proof. apply repeat_length. Qed.

Lemma memcpy_exact (dst src : bytes) :
  length dst = length src -> memcpy dst src (length src) = src.
Proof.
  intros H. unfold memcpy.
  rewrite firstn_all, skipn_all2 by lia. apply app_nil_r.
Qed.

Lemma memcpy_prefix (dst src : bytes) (n : nat) :
  length dst <= n -> memcpy dst src n = firstn n src.
Proof.
  intros H. unfold memcpy. rewrite skipn_all2 by lia. apply app_nil_r.
Qed.

Lemma resize_prefix (n : nat) (v w : bytes) :
  length v = n -> resize n (v ++ w) = v.
Proof.
  intros H. unfold resize.
  rewrite firstn_app, firstn_all2 by lia.
  replace (n - length v) with 0 by lia.
  rewrite length_app. replace (n - (length v + length w)) with 0 by lia.
  simpl. now rewrite !app_nil_r.
Qed.

Lemma byte_of_nat_to_nat (n : nat) :
  n <= 255 -> Byte.to_nat (byte_of_nat n) = n.
Proof.
  intros H. unfold byte_of_nat.
  destruct (Byte.of_nat n) as [b|] eqn:E.
  - now apply Byte.to_of_nat.
  - apply Byte.of_nat_None_iff in E. lia.
Qed.

Lemma bytes_eqb_refl (a : bytes) : bytes_eqb a a = true.
Proof. unfold bytes_eqb. destruct (bytes_eq_dec a a); congruence. Qed.

(* ================================================================= *)
(** ** The key derivation *)

Section KdfFacts.

Variable env : Collaborators.

Lemma sha512_rounds_iter (n : nat) (di : CSHA512) (buf : bytes) :
  sha512_rounds env n di buf = Nat.iter n (SHA512 env) buf.
Proof.
  revert buf. induction n as [|n IH]; intros buf; [reflexivity|].
  cbn [sha512_rounds]. rewrite IH.
  unfold Finalize, Write, Reset. simpl sha_pending.
  now rewrite Nat.iter_succ_r.
Qed.

Lemma first_digest (chSalt : bytes) (strKeyData : SecureString) :
  Finalize env
    (if negb (length chSalt =? 0)
     then Write (Write CSHA512_init strKeyData) chSalt
     else Write CSHA512_init strKeyData)
  = SHA512 env (strKeyData ++ chSalt).
Proof.
  unfold Finalize, Write, CSHA512_init.
  destruct chSalt as [|b chSalt]; simpl; [now rewrite app_nil_r | reflexivity].
Qed.

Lemma BytesToKey_zero_count (chSalt : bytes) (strKeyData : SecureString)
    (key iv : option bytes) :
  BytesToKeySHA512AES env chSalt strKeyData 0 key iv = (0%Z, key, iv).
Proof. unfold BytesToKeySHA512AES. destruct key, iv; reflexivity. Qed.

Lemma BytesToKey_result (chSalt : bytes) (strKeyData : SecureString)
    (count : Z) (key iv : option bytes) :
  let r := BytesToKeySHA512AES env chSalt strKeyData count key iv in
  fst (fst r) = 32%Z \/ r = (0%Z, key, iv).
Proof.
  unfold BytesToKeySHA512AES.
  destruct key, iv; auto.
  destruct (count =? 0)%Z; auto.
Qed.

End KdfFacts.

(** C3: for a count of at least 1 the derivation hashes the passphrase
    followed by the salt, hashes the digest again count - 1 times, and
    hands out bytes 0..31 as the key and bytes 32..47 as the IV; with a
    count of 0 it returns 0 and writes nothing. *)
Theorem C3_BytesToKeySHA512AES_chain :
  forall (env : Collaborators) (chSalt : bytes) (strKeyData : SecureString)
         (count : Z) (k v : bytes),
    (1 <= count <= INT_MAX)%Z ->
    length k = WALLET_CRYPTO_KEY_SIZE ->
    length v = WALLET_CRYPTO_IV_SIZE ->
    let buf := Nat.iter (Z.to_nat (count - 1)) (SHA512 env)
                 (SHA512 env (strKeyData ++ chSalt)) in
    BytesToKeySHA512AES env chSalt strKeyData count (Some k) (Some v)
      = (32%Z, Some (firstn 32 buf), Some (firstn 16 (skipn 32 buf)))
    /\ (forall key iv,
          BytesToKeySHA512AES env chSalt strKeyData 0 key iv
            = (0%Z, key, iv)).
Proof.
  intros env chSalt strKeyData count k v Hc Hk Hv buf.
  split; [|intros key iv; apply BytesToKey_zero_count].
  unfold BytesToKeySHA512AES, INT_MAX in *.
  destruct (Z.eqb_spec count 0) as [E|_]; [lia|].
  rewrite first_digest, sha512_rounds_iter.
  rewrite Z.mod_small by lia.
  fold buf.
  rewrite !memcpy_prefix by lia.
  reflexivity.
Qed.

(** C3 on the passphrase "test", a zero salt and two rounds. *)
Lemma C3_BytesToKeySHA512AES_chain_witness :
  BytesToKeySHA512AES toy salt0 pass_test 2 (Some (zeros 32)) (Some (zeros 16))
    = (32%Z,
       Some (firstn 32 (SHA512 toy (SHA512 toy (pass_test ++ salt0)))),
       Some (firstn 16 (skipn 32 (SHA512 toy (SHA512 toy (pass_test ++ salt0))))))
  /\ BytesToKeySHA512AES toy salt0 pass_test 0 (Some (zeros 32)) None
    = (0%Z, Some (zeros 32), None).
Proof.
  destruct (@C3_BytesToKeySHA512AES_chain toy salt0 pass_test 2
              (zeros 32) (zeros 16)) as [H2 H0].
  - unfold INT_MAX; lia.
  - reflexivity.
  - reflexivity.
  - split; [exact H2 | apply H0].
Defined.

(* ================================================================= *)
(** ** [SetKeyFromPassphrase] *)

Lemma SetKey_new (chNewKey : CKeyingMaterial) (chNewIV : bytes) :
  length chNewKey = 32 -> length chNewIV = 16 ->
  SetKey CCrypter_new chNewKey chNewIV
    = (true, mkCCrypter chNewKey chNewIV true).
Proof.
  intros Hk Hv. unfold SetKey, CCrypter_new.
  unfold WALLET_CRYPTO_KEY_SIZE, WALLET_CRYPTO_IV_SIZE.
  destruct (Nat.eqb_spec (length chNewKey) 32); [|contradiction].
  destruct (Nat.eqb_spec (length chNewIV) 16); [|contradiction].
  cbn [negb orb vchKey vchIV].
  rewrite !memcpy_exact by (rewrite zeros_length; lia).
  reflexivity.
Qed.

Lemma SetKey_bad_key (c : CCrypter) (chNewKey : CKeyingMaterial)
    (chNewIV : bytes) :
  length chNewKey <> 32 -> SetKey c chNewKey chNewIV = (false, c).
Proof.
  intros H. unfold SetKey, WALLET_CRYPTO_KEY_SIZE.
  destruct (Nat.eqb_spec (length chNewKey) 32); [contradiction|reflexivity].
Qed.

(** C9, as the code has it: a failing call returns false and never turns
    [fKeySet] on; when it fails on its arguments (no round, or a salt that
    is not 8 bytes long) it returns before touching the crypter, and when
    it fails later (unknown method, or no key derived) both buffers are
    zero afterwards.  A crypter that never held a key is therefore still
    blank after any failing call. *)
Theorem C9_SetKeyFromPassphrase_failure :
  forall (env : Collaborators) (c : CCrypter) (strKeyData : SecureString)
         (chSalt : bytes) (nRounds nDerivationMethod : Z),
    fst (SetKeyFromPassphrase env c strKeyData chSalt nRounds
           nDerivationMethod) = false ->
    let c' := snd (SetKeyFromPassphrase env c strKeyData chSalt nRounds
                     nDerivationMethod) in
    fKeySet c' = fKeySet c
    /\ (((nRounds < 1)%Z \/ length chSalt <> 8) -> c' = c)
    /\ (~ ((nRounds < 1)%Z \/ length chSalt <> 8) ->
        vchKey c' = zeros (length (vchKey c))
        /\ vchIV c' = zeros (length (vchIV c)))
    /\ (c = CCrypter_new -> c' = CCrypter_new).
Proof.
  intros env c strKeyData chSalt nRounds nDerivationMethod.
  unfold SetKeyFromPassphrase, WALLET_CRYPTO_SALT_SIZE.
  assert (Hearly : (nRounds < 1)%Z \/ length chSalt <> 8 ->
            ((nRounds <? 1)%Z || negb (length chSalt =? 8)) = true).
  { intros [H|H].
    - apply Z.ltb_lt in H. now rewrite H.
    - apply Nat.eqb_neq in H. rewrite H. apply orb_true_r. }
  destruct (Z.ltb_spec nRounds 1) as [Hr|Hr];
    [|destruct (Nat.eqb_spec (length chSalt) 8) as [Hs|Hs]].
  1, 3: rewrite Hearly by auto; intros _; cbn [snd];
    split; [reflexivity|]; split; [reflexivity|]; split;
    [intros H; exfalso; apply H; auto | auto].
  clear Hearly. cbn [orb negb].
  set (kdf := if (nDerivationMethod =? 0)%Z then _ else _).
  assert (Hkdf : fst (fst kdf) = 32%Z
                 \/ kdf = (0%Z, Some (vchKey c), Some (vchIV c))).
  { subst kdf. destruct (nDerivationMethod =? 0)%Z; [|now right].
    apply BytesToKey_result. }
  destruct kdf as [[i k] v]. simpl in Hkdf.
  destruct Hkdf as [Hi|Hi].
  - subst i. simpl. discriminate.
  - inversion Hi; subst. simpl. intros _.
    unfold memory_cleanse. repeat split; auto.
    + intros [H|H]; [lia|contradiction].
    + intros ->. reflexivity.
Qed.

(** C9 on a new crypter and the unknown derivation method 1. *)
Lemma C9_SetKeyFromPassphrase_failure_witness :
  fKeySet (snd (SetKeyFromPassphrase toy CCrypter_new pass_test salt0 5 1))
    = false
  /\ vchKey (snd (SetKeyFromPassphrase toy CCrypter_new pass_test salt0 5 1))
    = zeros 32.
Proof.
  destruct (@C9_SetKeyFromPassphrase_failure toy CCrypter_new pass_test salt0
              5%Z 1%Z eq_refl) as (Hf & _ & Hz & _).
  split; [exact Hf|].
  apply Hz. intros [H|H]; [lia | apply H; reflexivity].
Defined.

(** C9 as stated fails: a crypter that holds a key keeps it, and keeps
    [fKeySet], through a call rejected for its round count. *)
Lemma C9_counterexample :
  let c := snd (SetKey CCrypter_new master1 (zeros 16)) in
  let r := SetKeyFromPassphrase toy c pass_test salt0 0 0 in
  fst r = false
  /\ ~ (vchKey (snd r) = zeros 32 /\ vchIV (snd r) = zeros 16
        /\ fKeySet (snd r) = false).
Proof.
  split; [reflexivity|].
  intros (_ & _ & H). vm_compute in H. discriminate H.
Qed.

(* ================================================================= *)
(** ** The cipher: padding and chaining *)

Lemma firstn_app_exact (A : Type) (n : nat) (a b : list A) :
  length a = n -> firstn n (a ++ b) = a.
Proof.
  intros H. rewrite firstn_app, firstn_all2 by lia.
  replace (n - length a) with 0 by lia. simpl. apply app_nil_r.
Qed.

Lemma skipn_app_exact (A : Type) (n : nat) (a b : list A) :
  length a = n -> skipn n (a ++ b) = b.
Proof.
  intros H. rewrite skipn_app, skipn_all2 by lia.
  replace (n - length a) with 0 by lia. reflexivity.
Qed.

Lemma last_app_repeat (X : bytes) (b : byte) (p : nat) :
  1 <= p -> last (X ++ repeat b p) x00 = b.
Proof.
  intros Hp. destruct p as [|p]; [lia|].
  replace (S p) with (p + 1) by lia.
  rewrite repeat_app, app_assoc. simpl. apply last_last.
Qed.

Lemma padsize_bounds (n : nat) :
  1 <= AES_BLOCKSIZE - n mod AES_BLOCKSIZE <= 16.
Proof.
  unfold AES_BLOCKSIZE.
  pose proof (Nat.mod_upper_bound n 16). lia.
Qed.

Lemma pkcs7_pad_length (X : bytes) :
  length (pkcs7_pad X) = 16 * (length X / 16 + 1).
Proof.
  unfold pkcs7_pad. rewrite length_app, repeat_length.
  unfold AES_BLOCKSIZE.
  pose proof (Nat.div_mod_eq (length X) 16).
  pose proof (Nat.mod_upper_bound (length X) 16). lia.
Qed.

Lemma pkcs7_padsize_pad (X : bytes) :
  pkcs7_padsize (pkcs7_pad X) = AES_BLOCKSIZE - length X mod AES_BLOCKSIZE.
Proof.
  pose proof (padsize_bounds (length X)) as Hb.
  unfold pkcs7_padsize, pkcs7_pad.
  rewrite last_app_repeat by lia.
  apply byte_of_nat_to_nat. lia.
Qed.

Lemma pkcs7_valid_pad (X : bytes) : pkcs7_valid (pkcs7_pad X) = true.
Proof.
  pose proof (padsize_bounds (length X)) as Hb.
  unfold pkcs7_valid. rewrite pkcs7_padsize_pad.
  set (p := AES_BLOCKSIZE - length X mod AES_BLOCKSIZE) in *.
  assert (Hlen : length (pkcs7_pad X) = length X + p).
  { unfold pkcs7_pad. fold p. now rewrite length_app, repeat_length. }
  rewrite Hlen.
  replace (length X + p - p) with (length X) by lia.
  unfold pkcs7_pad. fold p. rewrite skipn_app_exact by reflexivity.
  repeat (apply andb_true_intro; split).
  - apply Nat.leb_le; lia.
  - apply Nat.leb_le; unfold AES_BLOCKSIZE; lia.
  - apply Nat.leb_le; lia.
  - apply forallb_forall. intros b Hb'.
    apply repeat_spec in Hb'. subst b.
    apply Nat.eqb_eq. apply byte_of_nat_to_nat. lia.
Qed.

Section CipherFacts.

Variable env : Collaborators.
Hypothesis laws : CollaboratorLaws env.

Lemma cbc_encrypt_length (n : nat) : forall key prev data,
  length key = 32 -> length prev = 16 -> length data = 16 * n ->
  length (cbc_encrypt_blocks env n key prev data) = 16 * n.
Proof.
  induction n as [|n IH]; intros key prev data Hk Hp Hd; [reflexivity|].
  cbn [cbc_encrypt_blocks]. unfold AES_BLOCKSIZE.
  rewrite length_app.
  assert (Hx : length (xor_bytes (firstn 16 data) prev) = 16).
  { rewrite xor_bytes_length, length_firstn. lia. }
  assert (Hc : length (AES256Encrypt env key
                         (xor_bytes (firstn 16 data) prev)) = 16)
    by (apply (aes_block_length laws); assumption).
  rewrite IH; [lia | assumption | assumption |].
  rewrite length_skipn. lia.
Qed.

Lemma cbc_decrypt_encrypt (n : nat) : forall key prev data,
  length key = 32 -> length prev = 16 -> length data = 16 * n ->
  cbc_decrypt_blocks env n key prev (cbc_encrypt_blocks env n key prev data)
    = data.
Proof.
  induction n as [|n IH]; intros key prev data Hk Hp Hd.
  - destruct data; [reflexivity | simpl in Hd; lia].
  - cbn [cbc_encrypt_blocks cbc_decrypt_blocks]. unfold AES_BLOCKSIZE.
    assert (Hf : length (firstn 16 data) = 16)
      by (rewrite length_firstn; lia).
    assert (Hx : length (xor_bytes (firstn 16 data) prev) = 16)
      by (rewrite xor_bytes_length; lia).
    assert (Hc : length (AES256Encrypt env key
                           (xor_bytes (firstn 16 data) prev)) = 16)
      by (apply (aes_block_length laws); assumption).
    rewrite firstn_app_exact, skipn_app_exact by assumption.
    rewrite (aes_block_inverse laws) by assumption.
    rewrite xor_bytes_cancel by lia.
    rewrite IH; [apply firstn_skipn | assumption | assumption |].
    rewrite length_skipn. lia.
Qed.

Lemma ciphertext_of_length (K V : bytes) (X : CKeyingMaterial) :
  length K = 32 -> length V = 16 ->
  length (ciphertext_of env K V X) = 16 * (length X / 16 + 1).
Proof.
  intros HK HV. unfold ciphertext_of, AES_BLOCKSIZE.
  apply cbc_encrypt_length; auto using pkcs7_pad_length.
Qed.

Lemma Encrypt_result (K V : bytes) (X : CKeyingMaterial) :
  length K = 32 -> length V = 16 ->
  Encrypt env (mkCCrypter K V true) X = Some (ciphertext_of env K V X).
Proof.
  intros HK HV. unfold Encrypt, AES256CBCEncrypt. cbn [fKeySet negb vchKey vchIV].
  pose proof (pkcs7_pad_length X) as Hpad.
  pose proof (@ciphertext_of_length K V X HK HV) as Hct.
  unfold AES_BLOCKSIZE at 2.
  replace (length (pkcs7_pad X) / 16) with (length X / 16 + 1)
    by (rewrite Hpad, Nat.mul_comm, Nat.div_mul; lia).
  change (cbc_encrypt_blocks env (length X / 16 + 1) K V (pkcs7_pad X))
    with (ciphertext_of env K V X).
  pose proof (Nat.div_mod_eq (length X) 16).
  pose proof (Nat.mod_upper_bound (length X) 16).
  destruct (Nat.ltb_spec (length (pkcs7_pad X)) (length X)); [lia|].
  unfold memcpy. rewrite firstn_all2 by lia.
  now rewrite resize_prefix by lia.
Qed.

Lemma Decrypt_Encrypt (K V : bytes) (X : CKeyingMaterial) :
  length K = 32 -> length V = 16 ->
  Decrypt env (mkCCrypter K V true) (ciphertext_of env K V X)
    = if length X =? 0 then None else Some X.
Proof.
  intros HK HV. unfold Decrypt, AES256CBCDecrypt.
  cbn [fKeySet negb vchKey vchIV].
  pose proof (pkcs7_pad_length X) as Hpad.
  pose proof (@ciphertext_of_length K V X HK HV) as Hct.
  pose proof (Nat.div_mod_eq (length X) 16) as Hdm.
  pose proof (Nat.mod_upper_bound (length X) 16) as Hmb.
  rewrite Hct. unfold AES_BLOCKSIZE.
  replace (16 * (length X / 16 + 1) =? 0) with false
    by (symmetry; apply Nat.eqb_neq; lia).
  replace (16 * (length X / 16 + 1) mod 16) with 0
    by (rewrite Nat.mul_comm, Nat.Div0.mod_mul; reflexivity).
  replace (16 * (length X / 16 + 1) / 16) with (length X / 16 + 1)
    by (rewrite Nat.mul_comm, Nat.div_mul; lia).
  cbn [Nat.eqb negb orb].
  unfold ciphertext_of, AES_BLOCKSIZE.
  rewrite cbc_decrypt_encrypt by auto.
  rewrite pkcs7_valid_pad, pkcs7_padsize_pad.
  unfold AES_BLOCKSIZE.
  replace (16 * (length X / 16 + 1) - (16 - length X mod 16))
    with (length X) by lia.
  destruct (length X =? 0); [reflexivity|].
  unfold memcpy. rewrite firstn_all2 by lia.
  unfold pkcs7_pad. rewrite <- app_assoc.
  now rewrite resize_prefix.
Qed.

End CipherFacts.

(* ================================================================= *)
(** ** The small instance obeys the laws *)

Lemma fit_length (n : nat) (l : bytes) : length (fit n l) = n.
Proof.
  unfold fit. rewrite length_firstn, length_app, zeros_length. lia.
Qed.

Lemma toy_laws : CollaboratorLaws toy.
Proof.
  constructor; cbn [toy AES256Encrypt AES256Decrypt IsCompressed GetPubKey_of
                      GetHash].
  - intros k b Hk Hb. rewrite xor_bytes_length, length_firstn. lia.
  - intros k b Hk Hb. apply xor_bytes_cancel. rewrite length_firstn. lia.
  - intros [d [|]]; reflexivity.
  - intros p. apply fit_length.
Qed.

(* ================================================================= *)
(** ** Encrypt and decrypt *)

(** C4, restricted to what the code does: for a plaintext that is not
    empty, a 32-byte key and a 16-byte IV, [Encrypt] succeeds, [Decrypt] of
    its result gives the plaintext back, and the ciphertext is
    16 * ceil((|X| + 1) / 16) bytes long, which is more than |X|. *)
Theorem C4_Encrypt_Decrypt_roundtrip :
  forall (env : Collaborators) (X : CKeyingMaterial) (K V : bytes),
    CollaboratorLaws env ->
    X <> [] ->
    length K = WALLET_CRYPTO_KEY_SIZE ->
    length V = WALLET_CRYPTO_IV_SIZE ->
    let c := snd (SetKey CCrypter_new K V) in
    exists ct,
      Encrypt env c X = Some ct
      /\ Decrypt env c ct = Some X
      /\ length ct = 16 * ((length X + 1 + 15) / 16)
      /\ length X < length ct.
Proof.
  intros env X K V laws HX HK HV c.
  unfold WALLET_CRYPTO_KEY_SIZE, WALLET_CRYPTO_IV_SIZE in *.
  subst c. rewrite SetKey_new by assumption. cbn [snd].
  exists (ciphertext_of env K V X).
  pose proof (@ciphertext_of_length env laws K V X HK HV) as Hlen.
  assert (Hceil : (length X + 1 + 15) / 16 = length X / 16 + 1).
  { replace (length X + 1 + 15) with (length X + 1 * 16) by lia.
    apply Nat.div_add. lia. }
  pose proof (Nat.div_mod_eq (length X) 16).
  pose proof (Nat.mod_upper_bound (length X) 16).
  repeat split.
  - now apply Encrypt_result.
  - rewrite Decrypt_Encrypt by assumption.
    destruct X; [contradiction | reflexivity].
  - now rewrite Hceil.
  - lia.
Qed.

(** C4 on the four-byte plaintext "test". *)
Lemma C4_Encrypt_Decrypt_roundtrip_witness :
  exists ct,
    Encrypt toy (snd (SetKey CCrypter_new master1 (zeros 16))) pass_test
      = Some ct
    /\ Decrypt toy (snd (SetKey CCrypter_new master1 (zeros 16))) ct
      = Some pass_test
    /\ length ct = 16 * ((length pass_test + 1 + 15) / 16)
    /\ length pass_test < length ct.
Proof.
  apply (@C4_Encrypt_Decrypt_roundtrip toy pass_test master1 (zeros 16)).
  - exact toy_laws.
  - discriminate.
  - reflexivity.
  - reflexivity.
Defined.

(** C4 as stated fails on the empty plaintext: its encryption is one block
    of padding, and [Decrypt] reads the plaintext length 0 of that block
    as a failure. *)
Lemma C4_counterexample :
  let c := snd (SetKey CCrypter_new master1 (zeros 16)) in
  exists ct,
    Encrypt toy c [] = Some ct
    /\ Decrypt toy c ct = None
    /\ Decrypt toy c ct <> Some [].
Proof.
  eexists. split; [vm_compute; reflexivity|].
  split; [reflexivity | discriminate].
Qed.

(* ================================================================= *)
(** ** [Unlock] *)

Section UnlockFacts.

Variable env : Collaborators.

Lemma SetCrypted_crypted (s : CCryptoKeyStore) :
  fUseCrypto s = true -> SetCrypted s = (true, s).
Proof. intros H. unfold SetCrypted. now rewrite H. Qed.

(** The two flags at the exit of the loop say whether an inspected entry
    was accepted, and whether one was rejected. *)
Lemma Unlock_walk_flags (m : CKeyingMaterial) (fChecked : bool)
    (l : CryptedKeyMap) : forall keyPass keyFail,
  Unlock_walk env m fChecked l keyPass keyFail
    = (keyPass || existsb (entry_decrypts env m)
                    (inspected (entry_decrypts env m) fChecked l),
       keyFail || existsb (fun e => negb (entry_decrypts env m e))
                    (inspected (entry_decrypts env m) fChecked l)).
Proof.
  induction l as [|[id [pub ct]] l IH]; intros keyPass keyFail.
  - simpl. now rewrite !orb_false_r.
  - assert (Hd : entry_decrypts env m (id, (pub, ct))
                 = succeeded (DecryptKey env m ct pub)) by reflexivity.
    cbn [Unlock_walk inspected]. rewrite Hd.
    destruct (DecryptKey env m ct pub) as [key|]; cbn [succeeded].
    + destruct fChecked.
      * cbn [existsb]. rewrite Hd.
        destruct keyPass, keyFail; reflexivity.
      * rewrite IH. cbn [existsb]. rewrite Hd.
        destruct keyPass, keyFail; reflexivity.
    + cbn [existsb]. rewrite Hd.
      destruct keyPass, keyFail; reflexivity.
Qed.

(** Every inspected entry but the last is an accepted one. *)
Lemma inspected_all_or_fail (A : Type) (ok : A -> bool) (fChecked : bool)
    (l : list A) :
  existsb (fun e => negb (ok e)) (inspected ok fChecked l) = false ->
  forallb ok (inspected ok fChecked l) = true.
Proof.
  induction l as [|e l IH]; [reflexivity|].
  cbn [inspected]. destruct (ok e) eqn:E.
  - destruct fChecked; cbn [existsb forallb]; rewrite E; cbn; auto.
  - cbn [existsb]. rewrite E. discriminate.
Qed.

End UnlockFacts.


(* ================================================================= *)
(** ** The envelope helpers *)

Section EnvelopeFacts.

Variable env : Collaborators.

Lemma EncryptSecret_bad_master (m X : CKeyingMaterial) (h : uint256) :
  length m <> 32 -> EncryptSecret env m X h = None.
Proof.
  intros H. unfold EncryptSecret. now rewrite SetKey_bad_key.
Qed.

Lemma DecryptSecret_bad_master (m : CKeyingMaterial) (ct : bytes)
    (h : uint256) :
  length m <> 32 -> DecryptSecret env m ct h = None.
Proof.
  intros H. unfold DecryptSecret. now rewrite SetKey_bad_key.
Qed.

Lemma DecryptKey_bad_master (m : CKeyingMaterial) (ct : bytes)
    (pub : CPubKey) :
  length m <> 32 -> DecryptKey env m ct pub = None.
Proof.
  intros H. unfold DecryptKey. now rewrite DecryptSecret_bad_master.
Qed.

Lemma EncryptSecret_master_length (m X : CKeyingMaterial) (h : uint256)
    (ct : bytes) :
  EncryptSecret env m X h = Some ct -> length m = 32.
Proof.
  intros H. destruct (Nat.eq_dec (length m) 32) as [E|E]; [exact E|].
  rewrite EncryptSecret_bad_master in H by exact E. discriminate.
Qed.

Lemma iv_of_uint256_length (h : uint256) :
  length h = 32 -> length (iv_of_uint256 h) = 16.
Proof.
  intros H. unfold iv_of_uint256, WALLET_CRYPTO_IV_SIZE.
  rewrite memcpy_prefix by (rewrite zeros_length; lia).
  rewrite length_firstn. lia.
Qed.

Hypothesis laws : CollaboratorLaws env.

Lemma EncryptSecret_result (m X : CKeyingMaterial) (h : uint256) :
  length m = 32 -> length h = 32 ->
  EncryptSecret env m X h = Some (ciphertext_of env m (iv_of_uint256 h) X).
Proof.
  intros Hm Hh. unfold EncryptSecret.
  pose proof (iv_of_uint256_length h Hh) as Hiv.
  rewrite SetKey_new by assumption. cbn [negb].
  now apply Encrypt_result.
Qed.

Lemma DecryptSecret_EncryptSecret (m X : CKeyingMaterial) (h : uint256)
    (ct : bytes) :
  length h = 32 -> X <> [] ->
  EncryptSecret env m X h = Some ct ->
  DecryptSecret env m ct h = Some X.
Proof.
  intros Hh HX He.
  pose proof (EncryptSecret_master_length _ _ _ He) as Hm.
  rewrite EncryptSecret_result in He by assumption.
  inversion He; subst ct. unfold DecryptSecret.
  pose proof (iv_of_uint256_length h Hh) as Hiv.
  rewrite SetKey_new by assumption. cbn [negb].
  rewrite Decrypt_Encrypt by assumption.
  destruct X; [contradiction | reflexivity].
Qed.

(** What [EncryptSecret] makes of a well-formed private key under the hash
    of its own public key, [DecryptKey] turns back into that key. *)
Lemma DecryptKey_EncryptSecret (m : CKeyingMaterial) (key : CKey)
    (ct : bytes) :
  length (keydata key) = 32 ->
  EncryptSecret env m (keydata key) (GetHash env (GetPubKey_of env key))
    = Some ct ->
  DecryptKey env m ct (GetPubKey_of env key) = Some key.
Proof.
  intros Hk He. unfold DecryptKey.
  rewrite (@DecryptSecret_EncryptSecret m (keydata key) _ ct);
    [| apply (pubkey_hash_length laws)
     | intros E; rewrite E in Hk; discriminate Hk
     | exact He].
  rewrite Hk. cbn [Nat.eqb negb].
  rewrite (pubkey_compression laws).
  unfold CKey_VerifyPubKey, CKey_Set.
  destruct key as [d c]. cbn [keydata fCompressed].
  now rewrite bytes_eqb_refl.
Qed.

End EnvelopeFacts.

(* ================================================================= *)
(** ** [std::map]: lookups after an assignment, order of the keys *)

Section MapFacts.

Variable V : Type.

Lemma map_find_assign_same (k : CKeyID) (v : V) (m : std_map V) :
  map_find k (map_assign k v m) = Some v.
Proof.
  induction m as [|[k' v'] m IH]; cbn [map_assign map_find].
  - now rewrite N.eqb_refl.
  - destruct (N.compare_spec k k') as [E|L|G]; cbn [map_find].
    + now rewrite N.eqb_refl.
    + now rewrite N.eqb_refl.
    + destruct (N.eqb_spec k k'); [lia | exact IH].
Qed.

Lemma map_find_assign_other (k k2 : CKeyID) (v : V) (m : std_map V) :
  k2 <> k -> map_find k2 (map_assign k v m) = map_find k2 m.
Proof.
  intros Hne.
  induction m as [|[k' v'] m IH]; cbn [map_assign map_find].
  - destruct (N.eqb_spec k2 k); [contradiction | reflexivity].
  - destruct (N.compare_spec k k') as [E|L|G]; cbn [map_find].
    + subst k'. destruct (N.eqb_spec k2 k); [contradiction | reflexivity].
    + destruct (N.eqb_spec k2 k); [contradiction | reflexivity].
    + destruct (N.eqb_spec k2 k'); [reflexivity | exact IH].
Qed.

Lemma map_assign_Forall (P : CKeyID * V -> Prop) (k : CKeyID) (v : V)
    (m : std_map V) :
  P (k, v) -> Forall P m -> Forall P (map_assign k v m).
Proof.
  intros Hkv Hm.
  induction Hm as [|[k' v'] m Hx Hm IH]; cbn [map_assign].
  - constructor; [assumption | constructor].
  - destruct (N.compare k k'); repeat (constructor; try assumption).
Qed.

Lemma map_assign_not_empty (k : CKeyID) (v : V) (m : std_map V) :
  map_assign k v m <> [].
Proof.
  destruct m as [|[k' v'] m]; cbn [map_assign]; [discriminate|].
  destruct (N.compare k k'); discriminate.
Qed.

Lemma map_assign_sorted (k : CKeyID) (v : V) (m : std_map V) :
  map_sorted m -> map_sorted (map_assign k v m).
Proof.
  unfold map_sorted, map_keys.
  induction m as [|[k' v'] m IH]; cbn [map_assign map fst]; intros Hs.
  - repeat constructor.
  - apply StronglySorted_inv in Hs. destruct Hs as [Hs Hall].
    destruct (N.compare_spec k k') as [E|L|G]; cbn [map fst].
    + subst k'. constructor; assumption.
    + constructor; [constructor; assumption|].
      constructor; [assumption|].
      eapply Forall_impl; [|exact Hall]. intros a Ha. cbv beta in Ha. lia.
    + constructor; [apply IH; assumption|].
      change (Forall (N.lt k') (map fst (map_assign k v m))).
      rewrite Forall_map.
      apply map_assign_Forall; [exact G|].
      now rewrite <- Forall_map.
Qed.

Lemma map_sorted_NoDup (m : std_map V) :
  map_sorted m -> NoDup (map_keys m).
Proof.
  unfold map_sorted. generalize (map_keys m). intros l Hs.
  induction Hs as [|a l Hs IH Hall]; constructor; [|assumption].
  intros Hin. rewrite Forall_forall in Hall.
  specialize (Hall a Hin). lia.
Qed.

End MapFacts.

(* ================================================================= *)
(** ** The store: single calls *)

Section StoreFacts.

Variable env : Collaborators.

Lemma AddCryptedKey_crypted (s : CCryptoKeyStore) (pub : CPubKey)
    (ct : bytes) :
  fUseCrypto s = true ->
  AddCryptedKey env s pub ct
    = (true, set_mapCryptedKeys s
               (map_assign (GetID env pub) (pub, ct) (mapCryptedKeys s))).
Proof.
  intros H. unfold AddCryptedKey. now rewrite SetCrypted_crypted.
Qed.

Lemma Lock_crypted (s : CCryptoKeyStore) :
  fUseCrypto s = true ->
  Lock s = (true, NotifyStatusChanged (set_vMasterKey s [])).
Proof.
  intros H. unfold Lock. now rewrite SetCrypted_crypted.
Qed.

(** With no master key in the store nothing decrypts. *)
Lemma GetKey_locked (s : CCryptoKeyStore) (id : CKeyID) :
  fUseCrypto s = true -> vMasterKey s = [] -> GetKey env s id = None.
Proof.
  intros Hc Hm. unfold GetKey, IsCrypted. rewrite Hc. cbn [negb].
  destruct (map_find id (mapCryptedKeys s)) as [[pub ct]|]; [|reflexivity].
  rewrite Hm. apply DecryptKey_bad_master. discriminate.
Qed.




(** [Unlock] returns true only over a map that is not empty and whose
    inspected records all decrypt. *)
Lemma Unlock_true_inv (s s' : CCryptoKeyStore) (m : CKeyingMaterial) :
  fUseCrypto s = true ->
  Unlock env s m = Returned (true, s') ->
  mapCryptedKeys s <> []
  /\ forallb (entry_decrypts env m)
       (inspected (entry_decrypts env m) (fDecryptionThoroughlyChecked s)
          (mapCryptedKeys s)) = true.
Proof.
  intros Hc H. unfold Unlock in H.
  rewrite SetCrypted_crypted in H by assumption. cbn [negb] in H.
  rewrite Unlock_walk_flags in H. cbn [orb] in H.
  pose proof (@inspected_all_or_fail _ (entry_decrypts env m)
                (fDecryptionThoroughlyChecked s) (mapCryptedKeys s)) as Hall.
  destruct (existsb (entry_decrypts env m)
              (inspected (entry_decrypts env m)
                 (fDecryptionThoroughlyChecked s) (mapCryptedKeys s)))
    eqn:Hp;
    destruct (existsb (fun e => negb (entry_decrypts env m e))
                (inspected (entry_decrypts env m)
                   (fDecryptionThoroughlyChecked s) (mapCryptedKeys s)))
      eqn:Hf;
    cbn [andb orb negb] in H; try discriminate H.
  split; [|auto].
  intros E. rewrite E in Hp. discriminate Hp.
Qed.

(** The loop of [EncryptKeys] touches [mapCryptedKeys] and nothing else. *)
Lemma EncryptKeys_loop_frame (m : CKeyingMaterial) (rest : KeyMap) :
  forall s ok s',
    fUseCrypto s = true ->
    EncryptKeys_loop env m rest s = (ok, s') ->
    fUseCrypto s' = true
    /\ mapKeys s' = mapKeys s
    /\ vMasterKey s' = vMasterKey s
    /\ (map_sorted (mapCryptedKeys s) -> map_sorted (mapCryptedKeys s'))
    /\ (mapCryptedKeys s <> [] -> mapCryptedKeys s' <> [])
    /\ (ok = true -> rest <> [] -> mapCryptedKeys s' <> []).
Proof.
  induction rest as [|[id key] rest IH]; intros s ok s' Hc H;
    cbn [EncryptKeys_loop] in H.
  - inversion H; subst. repeat split; auto.
  - destruct (EncryptSecret env m (keydata key)
                (GetHash env (GetPubKey_of env key))) as [ct|].
    2:{ inversion H; subst. repeat split; auto; discriminate. }
    rewrite AddCryptedKey_crypted in H by assumption. cbn [negb] in H.
    apply IH in H; [|assumption].
    cbn [fUseCrypto mapKeys vMasterKey mapCryptedKeys set_mapCryptedKeys] in H.
    destruct H as (H1 & H2 & H3 & H4 & H5 & H6).
    repeat split; auto.
    + intros Hs. apply H4. now apply map_assign_sorted.
    + intros _. apply H5. apply map_assign_not_empty.
    + intros _ _. apply H5. apply map_assign_not_empty.
Qed.

Hypothesis laws : CollaboratorLaws env.


End StoreFacts.


(* ================================================================= *)
(** ** Encrypting a store, locking it, unlocking it *)




(* ================================================================= *)
(** ** The store: what every call preserves *)

Ltac break_call H :=
  repeat match type of H with
         | context [match ?x with _ => _ end] => destruct x eqn:?
         end.

Section CallFacts.

Variable env : Collaborators.

Lemma SetCrypted_effect (s : CCryptoKeyStore) (ok : bool)
    (s' : CCryptoKeyStore) :
  SetCrypted s = (ok, s') ->
  (ok = false /\ s' = s /\ fUseCrypto s = false /\ mapKeys s <> [])
  \/ (ok = true /\ s' = s /\ fUseCrypto s = true)
  \/ (ok = true /\ s' = set_fUseCrypto s true /\ mapKeys s = []).
Proof.
  unfold SetCrypted. intros H.
  destruct (fUseCrypto s) eqn:Hc.
  - inversion H; subst. right; left. auto.
  - destruct (mapKeys s) as [|e l] eqn:Hk; cbn [map_empty negb] in H;
      inversion H; subst.
    + right; right. auto.
    + left. split; [reflexivity|]. split; [reflexivity|].
      split; [reflexivity | discriminate].
Qed.

Lemma EncryptKeys_effect (s : CCryptoKeyStore) (m : CKeyingMaterial)
    (r : bool) (s' : CCryptoKeyStore) :
  EncryptKeys env s m = (r, s') ->
  (negb (map_empty (mapCryptedKeys s)) || IsCrypted s = true
   /\ r = false /\ s' = s)
  \/ (negb (map_empty (mapCryptedKeys s)) || IsCrypted s = false
      /\ fUseCrypto s' = true
      /\ (r = true -> mapKeys s' = [])
      /\ (map_sorted (mapCryptedKeys s) -> map_sorted (mapCryptedKeys s'))).
Proof.
  unfold EncryptKeys. intros H.
  destruct (negb (map_empty (mapCryptedKeys s)) || IsCrypted s) eqn:Hpre.
  - inversion H; subst. left. auto.
  - right. split; [reflexivity|].
    destruct (EncryptKeys_loop env m (mapKeys (set_fUseCrypto s true))
                (set_fUseCrypto s true)) as [ok s1] eqn:Hloop.
    pose proof (@EncryptKeys_loop_frame env m _ (set_fUseCrypto s true)
                  ok s1 eq_refl Hloop) as (Hc & _ & _ & Hs & _).
    destruct ok; cbn [negb] in H; inversion H; subst.
    + repeat split; auto.
    + repeat split; auto. discriminate.
Qed.

(** [fUseCrypto], once set, survives every call. *)
Lemma call_keeps_fUseCrypto (op : Op) (s : CCryptoKeyStore) (r : bool)
    (s' : CCryptoKeyStore) :
  fUseCrypto s = true ->
  call env op s = Returned (r, s') ->
  fUseCrypto s' = true.
Proof.
  intros Hc H.
  destruct op; cbn [call] in H;
    try (inversion H; subst; exact Hc).
  - (* SetCrypted *)
    rewrite SetCrypted_crypted in H by assumption. now inversion H; subst.
  - (* Lock *)
    rewrite Lock_crypted in H by assumption. now inversion H; subst.
  - (* Unlock *)
    unfold Unlock in H. rewrite SetCrypted_crypted in H by assumption.
    cbn [negb] in H. break_call H; inversion H; subst; exact Hc.
  - (* AddCryptedPaperKey *)
    unfold AddCryptedPaperKey in H.
    rewrite SetCrypted_crypted in H by assumption.
    now inversion H; subst.
  - (* AddPaperKey *)
    unfold AddPaperKey, IsCrypted, AddCryptedPaperKey in H.
    rewrite SetCrypted_crypted, Hc in H by assumption. cbn [negb] in H.
    break_call H; inversion H; subst; exact Hc.
  - (* DecryptPaperKey *)
    unfold DecryptPaperKey in H.
    break_call H; inversion H; subst; exact Hc.
  - (* AddCryptedPinCode *)
    unfold AddCryptedPinCode in H.
    rewrite SetCrypted_crypted in H by assumption.
    now inversion H; subst.
  - (* AddPinCode *)
    unfold AddPinCode, IsCrypted, AddCryptedPinCode in H.
    rewrite SetCrypted_crypted, Hc in H by assumption. cbn [negb] in H.
    break_call H; inversion H; subst; exact Hc.
  - (* DecryptPinCode *)
    unfold DecryptPinCode in H.
    break_call H; inversion H; subst; exact Hc.
  - (* AddKeyPubKey *)
    unfold AddKeyPubKey, IsCrypted in H. rewrite Hc in H. cbn [negb] in H.
    break_call H; try (inversion H; subst; exact Hc).
    rewrite AddCryptedKey_crypted in H by assumption.
    now inversion H; subst.
  - (* AddCryptedKey *)
    rewrite AddCryptedKey_crypted in H by assumption.
    now inversion H; subst.
  - (* EncryptKeys *)
    inversion H as [He]. apply EncryptKeys_effect in He.
    destruct He as [(_ & _ & ->) | (_ & Hc' & _)]; assumption.
  - (* EncryptPaperKey *)
    unfold EncryptPaperKey in H.
    break_call H; inversion H; subst; exact Hc.
  - (* EncryptPinCode *)
    unfold EncryptPinCode in H.
    break_call H; inversion H; subst; exact Hc.
Qed.

End CallFacts.

(** Case analysis on the [SetCrypted] calls recorded in the context. *)
Ltac use_SetCrypted :=
  repeat match goal with
         | E : SetCrypted ?s = (?b, ?c) |- _ =>
             apply SetCrypted_effect in E;
             destruct E as [(? & ? & ? & ?) | [(? & ? & ?) | (? & ? & ?)]];
             subst
         end;
  try discriminate.

Ltac flip_negb :=
  repeat match goal with
         | E : negb _ = true |- _ => apply negb_true_iff in E
         | E : negb _ = false |- _ => apply negb_false_iff in E
         end;
  try discriminate.

Section CallEffects.

Variable env : Collaborators.

Lemma map_empty_true (V : Type) (m : std_map V) :
  map_empty m = true -> m = [].
Proof. destruct m; [reflexivity | discriminate]. Qed.

Lemma negb_map_empty_false (V : Type) (m : std_map V) :
  negb (map_empty m) = false -> m = [].
Proof. destruct m; [reflexivity | discriminate]. Qed.

(** What a call other than [EncryptKeys] does to [mapKeys] and to
    [fUseCrypto]: the plain map changes only in a store that is not
    encrypted and stays so, and the flag is turned on only over an empty
    plain map. *)
Lemma call_effect (op : Op) (s : CCryptoKeyStore) (r : bool)
    (s' : CCryptoKeyStore) :
  (forall m, op <> OpEncryptKeys m) ->
  call env op s = Returned (r, s') ->
  (mapKeys s' = mapKeys s
   /\ (fUseCrypto s' = fUseCrypto s
       \/ (fUseCrypto s' = true /\ mapKeys s = [])))
  \/ (fUseCrypto s = false /\ fUseCrypto s' = false).
Proof.
  intros Hop H.
  destruct op; cbn [call] in H;
    try (exfalso; eapply Hop; reflexivity);
    unfold Lock, Unlock, AddPaperKey, DecryptPaperKey, AddPinCode,
      DecryptPinCode, AddKeyPubKey, EncryptPaperKey, EncryptPinCode in H;
    unfold AddCryptedPaperKey, AddCryptedPinCode, AddCryptedKey,
      CBasicKeyStore_AddPaperKey, CBasicKeyStore_AddPinCode,
      CBasicKeyStore_AddKeyPubKey, IsLocked, IsCrypted in H;
    break_call H; use_SetCrypted; flip_negb;
    inversion H; subst; use_SetCrypted; cbn; auto.
Qed.

Lemma call_keeps_I1 (op : Op) (s : CCryptoKeyStore) (r : bool)
    (s' : CCryptoKeyStore) :
  fails_partway env op s = false ->
  I1 s ->
  call env op s = Returned (r, s') ->
  I1 s'.
Proof.
  intros Hpart HI H. unfold I1 in *.
  assert (Hcase : (exists m, op = OpEncryptKeys m)
                  \/ (forall m, op <> OpEncryptKeys m)).
  { destruct op; try (right; intros m' E; discriminate E).
    left. eexists. reflexivity. }
  destruct Hcase as [[m ->] | Hop].
  - cbn [call] in H. inversion H as [He]. cbn [fails_partway] in Hpart.
    pose proof (@EncryptKeys_effect env s m r s' He) as
      [(_ & _ & ->) | (Hpre & _ & Hk & _)]; [exact HI|].
    rewrite Hpre, He in Hpart. cbn [negb andb fst] in Hpart.
    intros _. apply Hk. now destruct r.
  - destruct (@call_effect op s r s' Hop H)
      as [[Hk [Hf | [Hf Hk0]]] | [_ Hf]].
    + rewrite Hk, Hf. exact HI.
    + intros _. now rewrite Hk.
    + rewrite Hf. discriminate.
Qed.

(** The entries of [mapCryptedKeys] stay in key order. *)
Lemma call_keeps_sorted (op : Op) (s : CCryptoKeyStore) (r : bool)
    (s' : CCryptoKeyStore) :
  map_sorted (mapCryptedKeys s) ->
  call env op s = Returned (r, s') ->
  map_sorted (mapCryptedKeys s').
Proof.
  intros Hs H.
  destruct op; cbn [call] in H;
    try (inversion H as [He]; apply EncryptKeys_effect in He;
         destruct He as [(_ & _ & ->) | (_ & _ & _ & He)]; auto; fail);
    unfold Lock, Unlock, AddPaperKey, DecryptPaperKey, AddPinCode,
      DecryptPinCode, AddKeyPubKey, EncryptPaperKey, EncryptPinCode in H;
    unfold AddCryptedPaperKey, AddCryptedPinCode, AddCryptedKey,
      CBasicKeyStore_AddPaperKey, CBasicKeyStore_AddPinCode,
      CBasicKeyStore_AddKeyPubKey, IsLocked, IsCrypted in H;
    break_call H; use_SetCrypted;
    inversion H; subst; use_SetCrypted; cbn;
    auto using map_assign_sorted.
Qed.

(** Runs. *)
Lemma run_keeps_fUseCrypto (ops : list Op) : forall s s',
  fUseCrypto s = true -> run env ops s = Returned s' -> fUseCrypto s' = true.
Proof.
  induction ops as [|op ops IH]; intros s s' Hc H; cbn [run] in H.
  - now inversion H; subst.
  - destruct (call env op s) as [|[r s1]] eqn:E; [discriminate|].
    eapply IH; [|exact H]. eapply call_keeps_fUseCrypto; eassumption.
Qed.

Lemma run_keeps_I1 (ops : list Op) : forall s s',
  no_partial_encryption env ops s = true ->
  I1 s -> run env ops s = Returned s' -> I1 s'.
Proof.
  induction ops as [|op ops IH]; intros s s' Hn HI H;
    cbn [run no_partial_encryption] in *.
  - now inversion H; subst.
  - apply andb_prop in Hn. destruct Hn as [Hp Hn].
    apply negb_true_iff in Hp.
    destruct (call env op s) as [|[r s1]] eqn:E; [discriminate|].
    eapply IH; [exact Hn | | exact H].
    eapply call_keeps_I1; eassumption.
Qed.

Lemma run_keeps_sorted (ops : list Op) : forall s s',
  map_sorted (mapCryptedKeys s) -> run env ops s = Returned s' ->
  map_sorted (mapCryptedKeys s').
Proof.
  induction ops as [|op ops IH]; intros s s' Hs H; cbn [run] in H.
  - now inversion H; subst.
  - destruct (call env op s) as [|[r s1]] eqn:E; [discriminate|].
    eapply IH; [|exact H]. eapply call_keeps_sorted; eassumption.
Qed.

End CallEffects.

(* ================================================================= *)
(** ** Adding a key to an unlocked store and reading it back *)

(** C5: on an encrypted store that holds the master key [m], a successful
    [AddKeyPubKey] of a private key with the public key derived from it
    makes [GetKey] on the identifier of that public key return the
    private key. *)
Theorem C5_AddKeyPubKey_then_GetKey :
  forall (env : Collaborators) (s s' : CCryptoKeyStore)
         (m : CKeyingMaterial) (priv : CKey),
    CollaboratorLaws env ->
    fUseCrypto s = true ->
    vMasterKey s = m ->
    m <> [] ->
    length (keydata priv) = 32 ->
    AddKeyPubKey env s priv (GetPubKey_of env priv) = (true, s') ->
    GetKey env s' (GetID env (GetPubKey_of env priv)) = Some priv.
Proof.
  intros env s s' m priv laws Hc Hm Hne Hk Hadd.
  unfold AddKeyPubKey, IsCrypted, IsLocked in Hadd.
  rewrite Hc in Hadd. cbn [negb] in Hadd.
  unfold IsCrypted in Hadd. rewrite Hc, Hm in Hadd. cbn [negb] in Hadd.
  destruct m as [|b m]; [contradiction|]. cbn [length Nat.eqb] in Hadd.
  destruct (EncryptSecret env (b :: m) (keydata priv)
              (GetHash env (GetPubKey_of env priv))) as [ct|] eqn:E;
    [|discriminate].
  rewrite AddCryptedKey_crypted in Hadd by assumption.
  inversion Hadd; subst s'; clear Hadd.
  unfold GetKey, IsCrypted, set_mapCryptedKeys.
  cbn [fUseCrypto mapCryptedKeys vMasterKey]. rewrite Hc.
  cbn [negb]. rewrite map_find_assign_same, Hm.
  now apply DecryptKey_EncryptSecret.
Qed.

(** C5 on the unlocked store with two keys and a third key. *)
Lemma C5_AddKeyPubKey_then_GetKey_witness :
  GetKey toy
    (snd (AddKeyPubKey toy store_unlocked key3 (GetPubKey_of toy key3)))
    (GetID toy (GetPubKey_of toy key3))
  = Some key3.
Proof.
  apply (@C5_AddKeyPubKey_then_GetKey toy store_unlocked _ master0 key3).
  - exact toy_laws.
  - reflexivity.
  - reflexivity.
  - discriminate.
  - reflexivity.
  - reflexivity.
Defined.

(* ================================================================= *)
(** ** The paper key of a locked store *)

(** C8, as the code has it: on a store that is encrypted, holds no master
    key and has no plaintext paper key cached, [GetPaperKey] fails. *)
Theorem C8_GetPaperKey_locked :
  forall (env : Collaborators) (s : CCryptoKeyStore),
    fUseCrypto s = true ->
    vMasterKey s = [] ->
    paperKey s = [] ->
    GetPaperKey env s = None.
Proof.
  intros env s Hc Hm Hp.
  unfold GetPaperKey, IsCrypted. rewrite Hp, Hc, Hm. cbn [length Nat.eqb negb].
  apply DecryptSecret_bad_master. discriminate.
Qed.

(** C8 on the store with two keys, encrypted and locked. *)
Lemma C8_GetPaperKey_locked_witness :
  GetPaperKey toy (snd (Lock store_encrypted)) = None.
Proof.
  apply (@C8_GetPaperKey_locked toy (snd (Lock store_encrypted)));
    reflexivity.
Defined.

(** C8 as stated fails: a paper key given to a store before it is locked
    stays cached in plaintext, and a locked store hands it out. *)
Lemma C8_counterexample :
  let s := final_store (run toy ops_paper_then_lock CCryptoKeyStore_new) in
  run toy ops_paper_then_lock CCryptoKeyStore_new = Returned s
  /\ fUseCrypto s = true
  /\ vMasterKey s = []
  /\ IsLocked s = true
  /\ GetPaperKey toy s = Some label_paperkey.
Proof. vm_compute. repeat split. Qed.

(* ================================================================= *)
(** ** The invariant I1 and the one-way flag *)

(** C6, as the code has it: in a state reached from a new store by calls
    none of which is an [EncryptKeys] that fails part-way, whatever the
    calls return, [fUseCrypto] set means [mapKeys] is empty. *)
Theorem C6_I1_without_partial_encryption :
  forall (env : Collaborators) (ops : list Op) (s : CCryptoKeyStore),
    run env ops CCryptoKeyStore_new = Returned s ->
    no_partial_encryption env ops CCryptoKeyStore_new = true ->
    fUseCrypto s = true -> mapKeys s = [].
Proof.
  intros env ops s Hrun Hclean.
  change (I1 s).
  eapply run_keeps_I1; [exact Hclean | | exact Hrun].
  intros H. discriminate H.
Qed.

(** C6 at the end of a run that adds keys, encrypts, locks, unlocks and
    adds a key. *)
Lemma C6_I1_without_partial_encryption_witness :
  mapKeys (final_store (run toy ops_bulk CCryptoKeyStore_new)) = [].
Proof.
  apply (@C6_I1_without_partial_encryption toy ops_bulk
           (final_store (run toy ops_bulk CCryptoKeyStore_new)));
    vm_compute; reflexivity.
Defined.

(** C6 as stated fails: [EncryptKeys] under a master key of the wrong
    length sets [fUseCrypto], fails on the first key and returns with
    [mapKeys] as it was. *)
Lemma C6_counterexample :
  let s := final_store (run toy ops_short_master CCryptoKeyStore_new) in
  run toy ops_short_master CCryptoKeyStore_new = Returned s
  /\ fUseCrypto s = true
  /\ mapKeys s <> []
  /\ ~ I1 s.
Proof.
  cbv zeta. split; [vm_compute; reflexivity|].
  split; [vm_compute; reflexivity|].
  split; [vm_compute; discriminate|].
  intros H. assert (E : fUseCrypto
    (final_store (run toy ops_short_master CCryptoKeyStore_new)) = true)
    by (vm_compute; reflexivity).
  specialize (H E). vm_compute in H. discriminate H.
Qed.

(** C7: once [fUseCrypto] is set it is set in every later state of the
    run, and [EncryptKeys] called on such a store returns false and leaves
    the store, [fUseCrypto] included, as it was. *)
Theorem C7_fUseCrypto_one_way :
  forall (env : Collaborators) (ops : list Op) (s0 s : CCryptoKeyStore)
         (m : CKeyingMaterial),
    fUseCrypto s0 = true ->
    run env ops s0 = Returned s ->
    fUseCrypto s = true
    /\ EncryptKeys env s m = (false, s)
    /\ fUseCrypto (snd (EncryptKeys env s m)) = true.
Proof.
  intros env ops s0 s m Hc Hrun.
  assert (Hs : fUseCrypto s = true)
    by (eapply run_keeps_fUseCrypto; eassumption).
  assert (He : EncryptKeys env s m = (false, s)).
  { unfold EncryptKeys, IsCrypted. rewrite Hs. now rewrite orb_true_r. }
  rewrite He. auto.
Qed.

(** C7 on the encrypted store after a lock, an unlock and a paper key. *)
Lemma C7_fUseCrypto_one_way_witness :
  let s := final_store
             (run toy [OpLock; OpUnlock master0; OpAddPaperKey pass_test]
                store_encrypted) in
  fUseCrypto s = true
  /\ EncryptKeys toy s master1 = (false, s)
  /\ fUseCrypto (snd (EncryptKeys toy s master1)) = true.
Proof.
  apply (@C7_fUseCrypto_one_way toy
           [OpLock; OpUnlock master0; OpAddPaperKey pass_test]
           store_encrypted _ master1); vm_compute; reflexivity.
Defined.

(* ================================================================= *)
(** ** [AddCryptedKey] *)

Lemma map_find_above (V : Type) (k : CKeyID) (m : std_map V) :
  Forall (N.lt k) (map_keys m) -> map_find k m = None.
Proof.
  induction m as [|[k' v'] m IH]; cbn [map_keys map fst map_find];
    intros H; [reflexivity|].
  inversion H as [|x l Hlt Hrest]; subst.
  destruct (N.eqb_spec k k'); [lia|]. now apply IH.
Qed.

(** An assignment to a key that is present keeps the number of entries;
    an assignment to a new key adds one. *)
Lemma map_assign_length (V : Type) (k : CKeyID) (v : V) (m : std_map V) :
  map_sorted m ->
  length (map_assign k v m)
    = if succeeded (map_find k m) then length m else S (length m).
Proof.
  unfold map_sorted, map_keys.
  induction m as [|[k' v'] m IH]; cbn [map_assign map fst map_find];
    intros Hs; [reflexivity|].
  apply StronglySorted_inv in Hs. destruct Hs as [Hs Hall].
  destruct (N.compare_spec k k') as [E|L|G].
  - subst k'. now rewrite N.eqb_refl.
  - destruct (N.eqb_spec k k'); [lia|].
    rewrite map_find_above; [reflexivity|].
    eapply Forall_impl; [|exact Hall]. intros a Ha. cbv beta in Ha. lia.
  - destruct (N.eqb_spec k k'); [lia|].
    cbn [length]. rewrite IH by assumption.
    now destruct (succeeded (map_find k m)).
Qed.

(** C10: in a store reached from a new one, [AddCryptedKey] returns what
    [SetCrypted] returns; when that is true the record is found under the
    identifier of its public key, every other identifier keeps its record,
    and the record replaces the previous one of that identifier rather
    than standing next to it; the identifiers in [mapCryptedKeys] are
    pairwise different before and after the call. *)
Theorem C10_AddCryptedKey_assigns :
  forall (env : Collaborators) (ops : list Op) (s : CCryptoKeyStore)
         (vchPubKey : CPubKey) (vchCryptedSecret : bytes),
    run env ops CCryptoKeyStore_new = Returned s ->
    let r := AddCryptedKey env s vchPubKey vchCryptedSecret in
    let id := GetID env vchPubKey in
    fst r = fst (SetCrypted s)
    /\ (fst r = false -> snd r = s)
    /\ (fst r = true ->
        map_find id (mapCryptedKeys (snd r))
          = Some (vchPubKey, vchCryptedSecret)
        /\ (forall id', id' <> id ->
            map_find id' (mapCryptedKeys (snd r))
              = map_find id' (mapCryptedKeys s))
        /\ length (mapCryptedKeys (snd r))
           = if succeeded (map_find id (mapCryptedKeys s))
             then length (mapCryptedKeys s)
             else S (length (mapCryptedKeys s)))
    /\ NoDup (map_keys (mapCryptedKeys s))
    /\ NoDup (map_keys (mapCryptedKeys (snd r))).
Proof.
  intros env ops s vchPubKey vchCryptedSecret Hrun r id.
  assert (Hs : map_sorted (mapCryptedKeys s)).
  { eapply run_keeps_sorted; [|exact Hrun]. constructor. }
  subst r. unfold AddCryptedKey.
  destruct (SetCrypted s) as [ok s1] eqn:E.
  pose proof (SetCrypted_effect _ E) as Heff.
  assert (Hm : mapCryptedKeys s1 = mapCryptedKeys s).
  { destruct Heff as [(_ & -> & _) | [(_ & -> & _) | (_ & -> & _)]];
      reflexivity. }
  destruct ok; cbn [negb fst snd].
  - unfold set_mapCryptedKeys. cbn [mapCryptedKeys]. rewrite Hm. fold id.
    split; [reflexivity|]. split; [discriminate|].
    split; [intros _; split; [|split]|split].
    + apply map_find_assign_same.
    + intros id' Hne. now apply map_find_assign_other.
    + now apply map_assign_length.
    + now apply map_sorted_NoDup.
    + apply map_sorted_NoDup. now apply map_assign_sorted.
  - destruct Heff as [(_ & -> & _) | [(Hf & _) | (Hf & _)]];
      try discriminate.
    split; [reflexivity|]. split; [reflexivity|].
    split; [discriminate|].
    split; now apply map_sorted_NoDup.
Qed.

(** C10 at the end of the same run, assigning a new ciphertext to a
    public key that is already in the map. *)
Lemma C10_AddCryptedKey_assigns_witness :
  let s := final_store (run toy ops_bulk CCryptoKeyStore_new) in
  let r := AddCryptedKey toy s pub1 (zeros 48) in
  fst r = true
  /\ map_find (GetID toy pub1) (mapCryptedKeys (snd r))
     = Some (pub1, zeros 48)
  /\ length (mapCryptedKeys (snd r)) = length (mapCryptedKeys s)
  /\ NoDup (map_keys (mapCryptedKeys (snd r))).
Proof.
  cbv zeta.
  destruct (@C10_AddCryptedKey_assigns toy ops_bulk
              (final_store (run toy ops_bulk CCryptoKeyStore_new))
              pub1 (zeros 48))
    as (_ & _ & Hadd & _ & Hnd); [vm_compute; reflexivity|].
  assert (Hr : fst (AddCryptedKey toy
                 (final_store (run toy ops_bulk CCryptoKeyStore_new))
                 pub1 (zeros 48)) = true) by (vm_compute; reflexivity).
  destruct (Hadd Hr) as (Hfind & _ & Hlen).
  split; [exact Hr|]. split; [exact Hfind|]. split; [|exact Hnd].
  rewrite Hlen. vm_compute. reflexivity.
Defined.

(* ================================================================= *)
(** ** The failing cases, for every choice of the primitives *)

(** The behaviours shown above on the small instance do not depend on it:
    each of them is a property of the control flow. *)
Section AnyPrimitives.

Variable env : Collaborators.

(** A call rejected for its arguments leaves the crypter as it was, key
    and [fKeySet] included. *)
Lemma SetKeyFromPassphrase_no_rounds (c : CCrypter)
    (strKeyData : SecureString) (chSalt : bytes) (nDerivationMethod : Z) :
  SetKeyFromPassphrase env c strKeyData chSalt 0 nDerivationMethod
    = (false, c).
Proof. reflexivity. Qed.

(** [EncryptKeys] on a store without keys succeeds, and the master key it
    was given does not unlock the store afterwards. *)
Lemma Unlock_after_encrypting_no_keys (m : CKeyingMaterial) :
  let s1 := snd (EncryptKeys env CCryptoKeyStore_new m) in
  EncryptKeys env CCryptoKeyStore_new m = (true, s1)
  /\ Unlock env (snd (Lock s1)) m = Returned (false, snd (Lock s1)).
Proof. split; reflexivity. Qed.

(** [EncryptKeys] under a master key of the wrong length, on a store with
    one key: the flag is set and the plain key is still there. *)
Lemma EncryptKeys_wrong_length (key : CKey) (pub : CPubKey)
    (m : CKeyingMaterial) :
  length m <> 32 ->
  let s0 := snd (AddKeyPubKey env CCryptoKeyStore_new key pub) in
  let r := EncryptKeys env s0 m in
  fst r = false /\ fUseCrypto (snd r) = true /\ mapKeys (snd r) <> [].
Proof.
  intros Hm. cbv zeta.
  unfold AddKeyPubKey, CBasicKeyStore_AddKeyPubKey. cbn [IsCrypted
    CCryptoKeyStore_new fUseCrypto negb snd].
  unfold EncryptKeys. cbn [set_mapKeys mapCryptedKeys map_empty negb orb
    IsCrypted fUseCrypto mapKeys CCryptoKeyStore_new map_assign
    set_fUseCrypto EncryptKeys_loop].
  rewrite EncryptSecret_bad_master by assumption.
  cbn. repeat split. discriminate.
Qed.

(** A paper key set before the store is locked is handed out by the
    locked store. *)
Lemma GetPaperKey_cached_when_locked (p : SecureString) :
  p <> [] ->
  let s := snd (Lock (snd (AddPaperKey env CCryptoKeyStore_new p))) in
  IsLocked s = true /\ GetPaperKey env s = Some p.
Proof.
  intros Hp. destruct p as [|b p]; [contradiction|].
  split; reflexivity.
Qed.

Hypothesis laws : CollaboratorLaws env.

(** The encryption of the empty plaintext does not decrypt. *)
Lemma Decrypt_empty_plaintext (K V : bytes) :
  length K = 32 -> length V = 16 ->
  Encrypt env (mkCCrypter K V true) [] = Some (ciphertext_of env K V [])
  /\ Decrypt env (mkCCrypter K V true) (ciphertext_of env K V []) = None.
Proof.
  intros HK HV. split.
  - now apply Encrypt_result.
  - now rewrite Decrypt_Encrypt.
Qed.

End AnyPrimitives.

(* ================================================================= *)
(** ** The crypter: setting a key from a passphrase, and using it *)

Lemma resize_length (n : nat) (v : bytes) : length (resize n v) = n.
Proof.
  unfold resize. rewrite length_app, length_firstn, zeros_length. lia.
Qed.

Lemma uint_to_int_small (u : Z) :
  (0 <= u <= INT_MAX)%Z -> uint_to_int u = u.
Proof.
  unfold uint_to_int, INT_MAX. intros H.
  rewrite Z.mod_small by lia.
  destruct (Z.leb_spec u 2147483647); [reflexivity | lia].
Qed.

Section PassphraseFacts.

Variable env : Collaborators.

Lemma BytesToKey_chain (chSalt : bytes) (strKeyData : SecureString)
    (count : Z) (k v : bytes) :
  (1 <= count <= INT_MAX)%Z -> length k = 32 -> length v = 16 ->
  BytesToKeySHA512AES env chSalt strKeyData count (Some k) (Some v)
    = (32%Z,
       Some (firstn 32 (Nat.iter (Z.to_nat (count - 1)) (SHA512 env)
                          (SHA512 env (strKeyData ++ chSalt)))),
       Some (firstn 16 (skipn 32
               (Nat.iter (Z.to_nat (count - 1)) (SHA512 env)
                  (SHA512 env (strKeyData ++ chSalt)))))).
Proof.
  intros Hc Hk Hv.
  unfold BytesToKeySHA512AES, INT_MAX in *.
  destruct (Z.eqb_spec count 0) as [E|_]; [lia|].
  rewrite first_digest, sha512_rounds_iter.
  rewrite Z.mod_small by lia.
  unfold WALLET_CRYPTO_KEY_SIZE, WALLET_CRYPTO_IV_SIZE.
  rewrite !memcpy_prefix by lia.
  reflexivity.
Qed.

Lemma SetKeyFromPassphrase_derives (c : CCrypter)
    (strKeyData : SecureString) (chSalt : bytes) (nRounds : Z) :
  (1 <= nRounds <= INT_MAX)%Z ->
  length chSalt = 8 -> length (vchKey c) = 32 -> length (vchIV c) = 16 ->
  SetKeyFromPassphrase env c strKeyData chSalt nRounds 0
    = (true,
       mkCCrypter
         (firstn 32 (Nat.iter (Z.to_nat (nRounds - 1)) (SHA512 env)
                       (SHA512 env (strKeyData ++ chSalt))))
         (firstn 16 (skipn 32
            (Nat.iter (Z.to_nat (nRounds - 1)) (SHA512 env)
               (SHA512 env (strKeyData ++ chSalt)))))
         true).
Proof.
  intros Hr Hs Hk Hv.
  unfold SetKeyFromPassphrase, WALLET_CRYPTO_SALT_SIZE. rewrite Hs.
  destruct (Z.ltb_spec nRounds 1) as [H|_]; [unfold INT_MAX in *; lia|].
  cbn [Nat.eqb negb orb Z.eqb].
  rewrite uint_to_int_small by lia.
  rewrite BytesToKey_chain by assumption.
  reflexivity.
Qed.

Lemma iter_SHA512_length (n : nat) (x : bytes) :
  (forall y, length (SHA512 env y) = 64) ->
  length (Nat.iter n (SHA512 env) (SHA512 env x)) = 64.
Proof.
  intros H. destruct n as [|n]; [apply H|].
  rewrite Nat.iter_succ. apply H.
Qed.

End PassphraseFacts.

(** X1: with at least one round (and no more than an [int] holds), a salt
    of 8 bytes and method 0, [SetKeyFromPassphrase] succeeds whatever the
    crypter held before: it sets [fKeySet] and replaces the key and the IV
    by bytes 0..31 and 32..47 of the iterated digest of the passphrase
    followed by the salt. *)
Theorem X1_SetKeyFromPassphrase_success :
  forall (env : Collaborators) (c : CCrypter) (strKeyData : SecureString)
         (chSalt : bytes) (nRounds : Z),
    (1 <= nRounds <= INT_MAX)%Z ->
    length chSalt = WALLET_CRYPTO_SALT_SIZE ->
    length (vchKey c) = WALLET_CRYPTO_KEY_SIZE ->
    length (vchIV c) = WALLET_CRYPTO_IV_SIZE ->
    let buf := Nat.iter (Z.to_nat (nRounds - 1)) (SHA512 env)
                 (SHA512 env (strKeyData ++ chSalt)) in
    SetKeyFromPassphrase env c strKeyData chSalt nRounds 0
      = (true, mkCCrypter (firstn 32 buf) (firstn 16 (skipn 32 buf)) true).
Proof.
  intros env c strKeyData chSalt nRounds Hr Hs Hk Hv buf.
  now apply SetKeyFromPassphrase_derives.
Qed.

(** X1 on a crypter that already holds a key. *)
Lemma X1_SetKeyFromPassphrase_success_witness :
  SetKeyFromPassphrase toy (mkCCrypter master1 (zeros 16) true) pass_test
    salt0 2 0
  = (true,
     mkCCrypter
       (firstn 32 (SHA512 toy (SHA512 toy (pass_test ++ salt0))))
       (firstn 16 (skipn 32 (SHA512 toy (SHA512 toy (pass_test ++ salt0)))))
       true).
Proof.
  apply (@X1_SetKeyFromPassphrase_success toy
           (mkCCrypter master1 (zeros 16) true) pass_test salt0 2).
  - unfold INT_MAX; lia.
  - reflexivity.
  - reflexivity.
  - reflexivity.
Defined.

(** X2: a new crypter keyed from a passphrase encrypts any plaintext that
    is not empty and decrypts the result back to it, provided SHA-512
    digests are 64 bytes long and the block transform has an inverse. *)
Theorem X2_passphrase_crypter_roundtrip :
  forall (env : Collaborators) (strKeyData : SecureString) (chSalt : bytes)
         (nRounds : Z) (X : CKeyingMaterial),
    CollaboratorLaws env ->
    (forall y, length (SHA512 env y) = 64) ->
    (1 <= nRounds <= INT_MAX)%Z ->
    length chSalt = WALLET_CRYPTO_SALT_SIZE ->
    X <> [] ->
    let r := SetKeyFromPassphrase env CCrypter_new strKeyData chSalt
               nRounds 0 in
    fst r = true
    /\ exists ct,
         Encrypt env (snd r) X = Some ct
         /\ Decrypt env (snd r) ct = Some X.
Proof.
  intros env strKeyData chSalt nRounds X laws Hsha Hr Hs HX r.
  subst r.
  rewrite SetKeyFromPassphrase_derives;
    [| assumption | assumption | reflexivity | reflexivity].
  cbn [fst snd]. split; [reflexivity|].
  set (buf := Nat.iter _ _ _).
  assert (Hbuf : length buf = 64) by (apply iter_SHA512_length; exact Hsha).
  assert (HK : length (firstn 32 buf) = 32)
    by (rewrite length_firstn; lia).
  assert (HV : length (firstn 16 (skipn 32 buf)) = 16)
    by (rewrite length_firstn, length_skipn; lia).
  exists (ciphertext_of env (firstn 32 buf) (firstn 16 (skipn 32 buf)) X).
  split; [now apply Encrypt_result|].
  rewrite Decrypt_Encrypt by assumption.
  destruct X; [contradiction | reflexivity].
Qed.

(** X2 on the passphrase "test", a zero salt, two rounds and a four-byte
    plaintext. *)
Lemma X2_passphrase_crypter_roundtrip_witness :
  exists ct,
    Encrypt toy
      (snd (SetKeyFromPassphrase toy CCrypter_new pass_test salt0 2 0))
      pin_1234 = Some ct
    /\ Decrypt toy
         (snd (SetKeyFromPassphrase toy CCrypter_new pass_test salt0 2 0))
         ct = Some pin_1234.
Proof.
  apply (@X2_passphrase_crypter_roundtrip toy pass_test salt0 2 pin_1234).
  - exact toy_laws.
  - intros y. apply fit_length.
  - unfold INT_MAX; lia.
  - reflexivity.
  - discriminate.
Defined.

(* ================================================================= *)
(** ** The crypter: what comes out of [Decrypt] and of the envelopes *)

Section CrypterBounds.

Variable env : Collaborators.

Lemma Encrypt_length (c : CCrypter) (X : CKeyingMaterial) :
  fKeySet c = true ->
  exists ct, Encrypt env c X = Some ct
             /\ length ct = 16 * (length X / 16 + 1).
Proof.
  intros Hk. unfold Encrypt, AES256CBCEncrypt. rewrite Hk. cbn [negb].
  pose proof (pkcs7_pad_length X) as Hpad.
  pose proof (Nat.div_mod_eq (length X) 16).
  pose proof (Nat.mod_upper_bound (length X) 16).
  destruct (Nat.ltb_spec (length (pkcs7_pad X)) (length X)); [lia|].
  eexists. split; [reflexivity|].
  now rewrite resize_length.
Qed.

Lemma Decrypt_bounds (c : CCrypter) (ct : bytes) (p : CKeyingMaterial) :
  Decrypt env c ct = Some p ->
  fKeySet c = true
  /\ length ct mod 16 = 0
  /\ 1 <= length p
  /\ length p < length ct
  /\ length ct <= length p + 16.
Proof.
  unfold Decrypt, AES256CBCDecrypt, AES_BLOCKSIZE. intros H.
  destruct (fKeySet c); cbn [negb] in H; [|discriminate].
  destruct (Nat.eqb_spec (length ct) 0) as [E0|E0]; cbn [orb] in H;
    [discriminate|].
  destruct (Nat.eqb_spec (length ct mod 16) 0) as [Em|Em]; cbn [negb] in H;
    [|discriminate].
  set (plain := cbc_decrypt_blocks env (length ct / 16) (vchKey c)
                  (vchIV c) ct) in *.
  destruct (pkcs7_valid plain) eqn:Hv; [|discriminate].
  unfold pkcs7_valid, AES_BLOCKSIZE in Hv. cbv zeta in Hv.
  set (ps := pkcs7_padsize plain) in *.
  apply andb_prop in Hv. destruct Hv as [Hv _].
  apply andb_prop in Hv. destruct Hv as [Hv _].
  apply andb_prop in Hv. destruct Hv as [H1 H16].
  apply Nat.leb_le in H1. apply Nat.leb_le in H16.
  destruct (Nat.eqb_spec (length ct - ps) 0) as [Ez|Ez]; [discriminate|].
  injection H as Hp. subst p. rewrite resize_length.
  split; [reflexivity|]. split; [assumption|]. lia.
Qed.

Lemma EncryptSecret_succeeds (m X : CKeyingMaterial) (h : uint256) :
  length m = 32 -> length h = 32 ->
  exists ct, EncryptSecret env m X h = Some ct
             /\ length ct = 16 * (length X / 16 + 1).
Proof.
  intros Hm Hh. unfold EncryptSecret.
  rewrite SetKey_new by (auto using iv_of_uint256_length).
  cbn [negb]. now apply Encrypt_length.
Qed.

Lemma DecryptSecret_master_length (m : CKeyingMaterial) (ct : bytes)
    (h : uint256) (p : CKeyingMaterial) :
  DecryptSecret env m ct h = Some p -> length m = 32.
Proof.
  intros H. destruct (Nat.eq_dec (length m) 32) as [E|E]; [exact E|].
  rewrite DecryptSecret_bad_master in H by exact E. discriminate.
Qed.

Lemma DecryptKey_sound (m : CKeyingMaterial) (ct : bytes) (pub : CPubKey)
    (key : CKey) :
  DecryptKey env m ct pub = Some key ->
  length m = 32
  /\ DecryptSecret env m ct (GetHash env pub) = Some (keydata key)
  /\ length (keydata key) = 32
  /\ fCompressed key = IsCompressed env pub
  /\ GetPubKey_of env key = pub.
Proof.
  unfold DecryptKey. intros H.
  destruct (DecryptSecret env m ct (GetHash env pub)) as [sec|] eqn:Hd;
    [|discriminate].
  destruct (Nat.eqb_spec (length sec) 32) as [Hl|Hl]; cbn [negb] in H;
    [|discriminate].
  destruct (CKey_VerifyPubKey env (CKey_Set sec (IsCompressed env pub)) pub)
    eqn:Hv; [|discriminate].
  inversion H; subst key. cbn [keydata fCompressed CKey_Set].
  unfold CKey_VerifyPubKey, bytes_eqb in Hv.
  destruct (bytes_eq_dec _ pub) as [E|E]; [|discriminate].
  repeat split; auto.
  eapply DecryptSecret_master_length; eassumption.
Qed.

Lemma DoubleHashOfString_length (str : bytes) :
  (forall x, length (SHA256 env x) = 32) ->
  length (DoubleHashOfString env str) = 32.
Proof.
  intros H. unfold DoubleHashOfString.
  destruct (length str =? 0); [apply zeros_length|].
  rewrite memcpy_prefix by (rewrite zeros_length; lia).
  rewrite length_firstn, H. reflexivity.
Qed.

End CrypterBounds.

(** X3: when [Decrypt] succeeds the crypter holds a key, the ciphertext is
    a whole number of 16-byte blocks, and the plaintext is not empty,
    shorter than the ciphertext, and shorter by 16 bytes at most. *)
Theorem X3_Decrypt_plaintext_bounds :
  forall (env : Collaborators) (c : CCrypter) (ct : bytes)
         (p : CKeyingMaterial),
    Decrypt env c ct = Some p ->
    fKeySet c = true
    /\ length ct mod 16 = 0
    /\ 1 <= length p
    /\ length p < length ct
    /\ length ct <= length p + 16.
Proof. intros env c ct p. apply Decrypt_bounds. Qed.

(** X3 on the ciphertext of a 32-byte secret. *)
Lemma X3_Decrypt_plaintext_bounds_witness :
  length (ciphertext_of toy master1 (zeros 16) (keydata key1)) mod 16 = 0
  /\ length (keydata key1)
     < length (ciphertext_of toy master1 (zeros 16) (keydata key1)).
Proof.
  destruct (@X3_Decrypt_plaintext_bounds toy
              (mkCCrypter master1 (zeros 16) true)
              (ciphertext_of toy master1 (zeros 16) (keydata key1))
              (keydata key1))
    as (_ & Hm & _ & Hlt & _).
  - vm_compute. reflexivity.
  - split; [exact Hm | exact Hlt].
Defined.

(** X4: under a 32-byte IV seed, [EncryptSecret] fails exactly when the
    master key is not 32 bytes long; when it succeeds on a plaintext that
    is not empty the ciphertext is the plaintext length rounded up to the
    next multiple of 16 above it (48 bytes for a 32-byte secret).
    [DecryptSecret] succeeds only under a 32-byte master key. *)
Theorem X4_EncryptSecret_master_key_length :
  forall (env : Collaborators) (m X : CKeyingMaterial) (h : uint256),
    length h = 32 ->
    X <> [] ->
    (EncryptSecret env m X h = None <-> length m <> 32)
    /\ (forall ct, EncryptSecret env m X h = Some ct ->
        length ct = 16 * (length X / 16 + 1)
        /\ (length X = 32 -> length ct = 48))
    /\ (forall ct p, DecryptSecret env m ct h = Some p -> length m = 32).
Proof.
  intros env m X h Hh HX. split; [|split].
  - split.
    + intros He Hm.
      destruct (@EncryptSecret_succeeds env m X h Hm Hh) as (ct & E & _).
      congruence.
    + apply EncryptSecret_bad_master.
  - intros ct He.
    pose proof (EncryptSecret_master_length _ _ _ _ He) as Hm.
    destruct (@EncryptSecret_succeeds env m X h Hm Hh) as (ct' & E & Hl).
    assert (ct' = ct) by congruence. subst ct'.
    split; [exact Hl|]. intros H32. rewrite Hl, H32. reflexivity.
  - intros ct p. apply DecryptSecret_master_length.
Qed.

(** X4 on a 32-byte secret under a master key of 32 zero bytes. *)
Lemma X4_EncryptSecret_master_key_length_witness :
  (EncryptSecret toy (zeros 31) (keydata key1) (GetHash toy pub1) = None)
  /\ (forall ct,
      EncryptSecret toy master0 (keydata key1) (GetHash toy pub1) = Some ct ->
      length ct = 48).
Proof.
  split.
  - apply (@X4_EncryptSecret_master_key_length toy (zeros 31) (keydata key1)
             (GetHash toy pub1)).
    + reflexivity.
    + discriminate.
    + discriminate.
  - intros ct He.
    apply (@X4_EncryptSecret_master_key_length toy master0 (keydata key1)
             (GetHash toy pub1) eq_refl); [discriminate | exact He |].
    reflexivity.
Defined.

(** X5: a key that [DecryptKey] returns was decrypted under a 32-byte
    master key with the hash of the record's public key as IV seed, is 32
    bytes long, carries the compression flag of that public key, and has
    that public key as its own. *)
Theorem X5_DecryptKey_returns_matching_key :
  forall (env : Collaborators) (m : CKeyingMaterial) (ct : bytes)
         (pub : CPubKey) (key : CKey),
    DecryptKey env m ct pub = Some key ->
    length m = 32
    /\ DecryptSecret env m ct (GetHash env pub) = Some (keydata key)
    /\ length (keydata key) = 32
    /\ fCompressed key = IsCompressed env pub
    /\ GetPubKey_of env key = pub.
Proof. intros env m ct pub key. apply DecryptKey_sound. Qed.

(** X5 on the record [EncryptKeys] makes of the first sample key. *)
Lemma X5_DecryptKey_returns_matching_key_witness :
  length (keydata key1) = 32 /\ GetPubKey_of toy key1 = pub1.
Proof.
  destruct (@X5_DecryptKey_returns_matching_key toy master0
              (ciphertext_of toy master0 (iv_of_uint256 (GetHash toy pub1))
                 (keydata key1))
              pub1 key1)
    as (_ & _ & Hl & _ & Hp).
  - vm_compute. reflexivity.
  - split; [exact Hl | exact Hp].
Defined.

(* ================================================================= *)
(** ** The store: the shape of the state after a call *)

Section StoreShapes.

Variable env : Collaborators.

Lemma set_mapCryptedKeys_same (s : CCryptoKeyStore) :
  set_mapCryptedKeys s (mapCryptedKeys s) = s.
Proof. destruct s; reflexivity. Qed.

(** The loop of [EncryptKeys] changes [mapCryptedKeys] only, and only by
    assignments of a record under the identifier of its public key. *)
Lemma EncryptKeys_loop_shape (m : CKeyingMaterial) (rest : KeyMap) :
  forall s ok s',
    fUseCrypto s = true ->
    EncryptKeys_loop env m rest s = (ok, s') ->
    s' = set_mapCryptedKeys s (mapCryptedKeys s')
    /\ forall P : CryptedKeyMap -> Prop,
         (forall pub ct mp,
             P mp -> P (map_assign (GetID env pub) (pub, ct) mp)) ->
         P (mapCryptedKeys s) -> P (mapCryptedKeys s').
Proof.
  induction rest as [|[id key] rest IH]; intros s ok s' Hc H;
    cbn [EncryptKeys_loop] in H.
  - injection H as _ <-. split; [now rewrite set_mapCryptedKeys_same | auto].
  - destruct (EncryptSecret env m (keydata key)
                (GetHash env (GetPubKey_of env key))) as [ct|].
    2:{ injection H as _ <-.
        split; [now rewrite set_mapCryptedKeys_same | auto]. }
    rewrite AddCryptedKey_crypted in H by assumption. cbn [negb] in H.
    apply IH in H; [|assumption].
    destruct H as [Hs HP]. split.
    + rewrite Hs at 1. reflexivity.
    + intros P Hclosed H0. apply HP; [assumption|].
      cbn [mapCryptedKeys set_mapCryptedKeys]. now apply Hclosed.
Qed.

Lemma EncryptKeys_shape (s : CCryptoKeyStore) (m : CKeyingMaterial)
    (r : bool) (s' : CCryptoKeyStore) :
  EncryptKeys env s m = (r, s') ->
  (negb (map_empty (mapCryptedKeys s)) || IsCrypted s = true
   /\ r = false /\ s' = s)
  \/ (negb (map_empty (mapCryptedKeys s)) || IsCrypted s = false
      /\ exists mp,
           (forall P : CryptedKeyMap -> Prop,
               (forall pub ct mp',
                   P mp' -> P (map_assign (GetID env pub) (pub, ct) mp')) ->
               P (mapCryptedKeys s) -> P mp)
           /\ s' = if r
                   then set_mapKeys
                          (set_mapCryptedKeys (set_fUseCrypto s true) mp) []
                   else set_mapCryptedKeys (set_fUseCrypto s true) mp).
Proof.
  unfold EncryptKeys. intros H.
  destruct (negb (map_empty (mapCryptedKeys s)) || IsCrypted s) eqn:Hpre.
  - injection H as <- <-. left. auto.
  - right. split; [reflexivity|].
    destruct (EncryptKeys_loop env m (mapKeys (set_fUseCrypto s true))
                (set_fUseCrypto s true)) as [ok s1] eqn:Hloop.
    pose proof (@EncryptKeys_loop_shape m _ (set_fUseCrypto s true) ok s1
                  eq_refl Hloop) as [Hs HP].
    exists (mapCryptedKeys s1). split; [exact HP|].
    destruct ok; cbn [negb] in H; injection H as <- <-.
    + now rewrite <- Hs.
    + exact Hs.
Qed.

Lemma Unlock_crypted_cases (s : CCryptoKeyStore) (m : CKeyingMaterial) :
  fUseCrypto s = true ->
  Unlock env s m = Aborted
  \/ Unlock env s m = Returned (false, s)
  \/ (Unlock env s m
        = Returned (true,
            NotifyStatusChanged
              (set_fDecryptionThoroughlyChecked (set_vMasterKey s m) true))
      /\ length m = 32
      /\ mapCryptedKeys s <> []).
Proof.
  intros Hc.
  destruct (Unlock env s m) as [|[r s']] eqn:E; [now left|].
  right. destruct r.
  - right.
    pose proof (@Unlock_true_inv env s s' m Hc E) as [Hne Hall].
    assert (Hm : length m = 32).
    { destruct (mapCryptedKeys s) as [|[id [pub ct]] l]; [contradiction|].
      cbn [inspected] in Hall.
      destruct (entry_decrypts env m (id, (pub, ct))) eqn:Hd.
      - unfold entry_decrypts in Hd. cbn [fst snd] in Hd.
        destruct (Nat.eq_dec (length m) 32) as [E32|E32]; [exact E32|].
        rewrite DecryptKey_bad_master in Hd by exact E32. discriminate.
      - cbn [forallb] in Hall. rewrite Hd in Hall. discriminate. }
    split; [|split; assumption].
    f_equal. f_equal.
    unfold Unlock in E. rewrite SetCrypted_crypted in E by assumption.
    cbn [negb] in E.
    destruct (Unlock_walk env m (fDecryptionThoroughlyChecked s)
                (mapCryptedKeys s) false false) as [kp kf].
    destruct (kp && kf); [discriminate|].
    destruct (kf || negb kp); injection E as E; [discriminate | now symmetry].
  - left. f_equal. f_equal.
    unfold Unlock in E. rewrite SetCrypted_crypted in E by assumption.
    cbn [negb] in E.
    destruct (Unlock_walk env m (fDecryptionThoroughlyChecked s)
                (mapCryptedKeys s) false false) as [kp kf].
    destruct (kp && kf); [discriminate|].
    destruct (kf || negb kp); injection E as E; [now symmetry | discriminate].
Qed.

(** [Unlock] starts with [SetCrypted]; from there on it behaves as on the
    store [SetCrypted] leaves. *)
Lemma Unlock_shape (s : CCryptoKeyStore) (m : CKeyingMaterial) (r : bool)
    (s' : CCryptoKeyStore) :
  Unlock env s m = Returned (r, s') ->
  (SetCrypted s = (false, s) /\ r = false /\ s' = s)
  \/ exists s1,
       SetCrypted s = (true, s1) /\ fUseCrypto s1 = true
       /\ ((r = false /\ s' = s1)
           \/ (r = true
               /\ s' = NotifyStatusChanged
                         (set_fDecryptionThoroughlyChecked
                            (set_vMasterKey s1 m) true)
               /\ length m = 32
               /\ mapCryptedKeys s1 <> [])).
Proof.
  intros H.
  destruct (SetCrypted s) as [ok s1] eqn:E.
  pose proof (SetCrypted_effect _ E) as Heff.
  destruct ok.
  - right. exists s1.
    assert (Hc1 : fUseCrypto s1 = true).
    { destruct Heff as [(Hf & _) | [(_ & -> & Hc) | (_ & -> & _)]];
        [discriminate | exact Hc | reflexivity]. }
    split; [reflexivity|]. split; [exact Hc1|].
    assert (Hu : Unlock env s m = Unlock env s1 m).
    { unfold Unlock. rewrite E, (SetCrypted_crypted _ Hc1). reflexivity. }
    rewrite Hu in H.
    destruct (Unlock_crypted_cases s1 m Hc1) as [Ha | [Hf | (Ht & Hm & Hne)]].
    + rewrite Ha in H. discriminate.
    + rewrite Hf in H. injection H as <- <-. left. auto.
    + rewrite Ht in H. injection H as <- <-. right. auto.
  - left.
    destruct Heff as [(_ & -> & _) | [(Hf & _) | (Hf & _)]];
      try discriminate.
    unfold Unlock in H. rewrite E in H. cbn [negb] in H.
    injection H as <- <-. auto.
Qed.

End StoreShapes.

(* ================================================================= *)
(** ** The store: further invariants of calls and runs *)

(** Case analysis on one call of the store, down to the state it leaves. *)
Ltac store_cases H :=
  lazymatch type of H with
  | Unlock _ _ _ = Returned _ =>
      apply Unlock_shape in H;
      destruct H as [(? & ? & ?)
                    | (? & ? & ? & [(? & ?) | (? & ? & ? & ?)])]
  | Returned (EncryptKeys _ _ _) = Returned (?r, _) =>
      injection H as H; apply EncryptKeys_shape in H;
      destruct H as [(? & ? & ?) | (? & ? & ? & ?)]; [|destruct r]
  | _ =>
      unfold Lock, AddPaperKey, DecryptPaperKey, AddPinCode,
        DecryptPinCode, AddKeyPubKey, EncryptPaperKey, EncryptPinCode in H;
      unfold AddCryptedPaperKey, AddCryptedPinCode, AddCryptedKey,
        CBasicKeyStore_AddPaperKey, CBasicKeyStore_AddPinCode,
        CBasicKeyStore_AddKeyPubKey, IsLocked, IsCrypted in H;
      break_call H; inversion H; clear H
  end;
  use_SetCrypted; flip_negb; subst.

Section MoreCallFacts.

Variable env : Collaborators.

(** Whatever holds of [mapCryptedKeys] and survives the assignment of a
    record under the identifier of its public key survives every call. *)
Lemma call_assigns (P : CryptedKeyMap -> Prop) (op : Op)
    (s : CCryptoKeyStore) (r : bool) (s' : CCryptoKeyStore) :
  (forall pub ct mp, P mp -> P (map_assign (GetID env pub) (pub, ct) mp)) ->
  P (mapCryptedKeys s) ->
  call env op s = Returned (r, s') ->
  P (mapCryptedKeys s').
Proof.
  intros Hclosed HP H.
  destruct op; cbn [call] in H; store_cases H; cbn; auto;
    match goal with
    | HPx : forall Q : CryptedKeyMap -> Prop, _ |- _ =>
        apply HPx; assumption
    end.
Qed.

Lemma run_assigns (P : CryptedKeyMap -> Prop) (ops : list Op) :
  (forall pub ct mp, P mp -> P (map_assign (GetID env pub) (pub, ct) mp)) ->
  forall s s',
    P (mapCryptedKeys s) -> run env ops s = Returned s' ->
    P (mapCryptedKeys s').
Proof.
  intros Hclosed.
  induction ops as [|op ops IH]; intros s s' HP H; cbn [run] in H.
  - now injection H as <-.
  - destruct (call env op s) as [|[r s1]] eqn:E; [discriminate|].
    eapply IH; [|exact H]. eapply call_assigns; eassumption.
Qed.

Lemma run_keyed_by_id (ops : list Op) (s : CCryptoKeyStore) :
  run env ops CCryptoKeyStore_new = Returned s ->
  records_keyed_by_id env (mapCryptedKeys s).
Proof.
  apply (@run_assigns (records_keyed_by_id env)).
  - intros pub ct mp Hmp. unfold records_keyed_by_id.
    apply map_assign_Forall; [reflexivity | exact Hmp].
  - constructor.
Qed.

End MoreCallFacts.

Section CoherenceFacts.

Variable env : Collaborators.

Lemma call_keeps_coherent (op : Op) (s : CCryptoKeyStore) (r : bool)
    (s' : CCryptoKeyStore) :
  store_coherent s ->
  call env op s = Returned (r, s') ->
  store_coherent s'.
Proof.
  intros Hco H.
  destruct op; cbn [call] in H; store_cases H;
    unfold store_coherent in *; cbn;
    intuition (try discriminate; try congruence).
Qed.

Lemma run_keeps_coherent (ops : list Op) : forall s s',
  store_coherent s -> run env ops s = Returned s' -> store_coherent s'.
Proof.
  induction ops as [|op ops IH]; intros s s' Hco H; cbn [run] in H.
  - now injection H as <-.
  - destruct (call env op s) as [|[r s1]] eqn:E; [discriminate|].
    eapply IH; [|exact H]. eapply call_keeps_coherent; eassumption.
Qed.

Lemma new_store_coherent : store_coherent CCryptoKeyStore_new.
Proof.
  unfold store_coherent. cbn.
  split; [intros H0; now elim H0|].
  split; [intros H0; now elim H0 | discriminate].
Qed.

Lemma call_notifications (op : Op) (s : CCryptoKeyStore) (r : bool)
    (s' : CCryptoKeyStore) :
  call env op s = Returned (r, s') ->
  nStatusChanged s'
    = nStatusChanged s + (if notifies op && r then 1 else 0).
Proof.
  intros H.
  destruct op; cbn [call] in H; store_cases H; cbn; lia.
Qed.

Lemma call_checked_flag (op : Op) (s : CCryptoKeyStore) (r : bool)
    (s' : CCryptoKeyStore) :
  call env op s = Returned (r, s') ->
  fDecryptionThoroughlyChecked s'
    = fDecryptionThoroughlyChecked s
      || match op with OpUnlock _ => r | _ => false end.
Proof.
  intros H.
  destruct op; cbn [call] in H; store_cases H; cbn;
    rewrite ?orb_false_r, ?orb_true_r; reflexivity.
Qed.

End CoherenceFacts.

Lemma map_find_In (V : Type) (k : CKeyID) (v : V) (m : std_map V) :
  map_find k m = Some v -> In (k, v) m.
Proof.
  induction m as [|[k' v'] m IH]; cbn [map_find]; [discriminate|].
  destruct (N.eqb_spec k k') as [->|_].
  - intros H. injection H as ->. now left.
  - intros H. right. now apply IH.
Qed.

Lemma IsLocked_true (s : CCryptoKeyStore) :
  IsLocked s = true -> fUseCrypto s = true /\ vMasterKey s = [].
Proof.
  unfold IsLocked, IsCrypted.
  destruct (fUseCrypto s); cbn [negb]; [|discriminate].
  destruct (vMasterKey s); [auto | discriminate].
Qed.

(** X6: in an encrypted store reached from a new one, a key that [GetKey]
    returns for an identifier is 32 bytes long, was decrypted under a
    32-byte master key, and its public key is the one recorded under that
    identifier and hashes to it. *)
Theorem X6_GetKey_returns_key_of_id :
  forall (env : Collaborators) (ops : list Op) (s : CCryptoKeyStore)
         (id : CKeyID) (key : CKey),
    run env ops CCryptoKeyStore_new = Returned s ->
    fUseCrypto s = true ->
    GetKey env s id = Some key ->
    GetID env (GetPubKey_of env key) = id
    /\ length (keydata key) = 32
    /\ length (vMasterKey s) = 32
    /\ exists ct,
         map_find id (mapCryptedKeys s) = Some (GetPubKey_of env key, ct).
Proof.
  intros env ops s id key Hrun Hc Hg.
  unfold GetKey, IsCrypted in Hg. rewrite Hc in Hg. cbn [negb] in Hg.
  destruct (map_find id (mapCryptedKeys s)) as [[pub ct]|] eqn:Hf;
    [|discriminate].
  apply DecryptKey_sound in Hg. destruct Hg as (Hm & _ & Hl & _ & Hp).
  subst pub.
  pose proof (run_keyed_by_id _ _ Hrun) as Hk.
  unfold records_keyed_by_id in Hk. rewrite Forall_forall in Hk.
  specialize (Hk _ (map_find_In _ _ Hf)). cbn [fst snd] in Hk.
  repeat split; auto. now exists ct.
Qed.

(** X6 on the first key of the reopened sample store. *)
Lemma X6_GetKey_returns_key_of_id_witness :
  GetID toy (GetPubKey_of toy key1) = toy_id pub1
  /\ length (vMasterKey store_reopened) = 32.
Proof.
  destruct (@X6_GetKey_returns_key_of_id toy
              [OpAddKeyPubKey key1 pub1; OpAddKeyPubKey key2 pub2;
               OpEncryptKeys master0; OpLock; OpUnlock master0]
              store_reopened (toy_id pub1) key1)
    as (Hid & _ & Hm & _); try (vm_compute; reflexivity).
  split; [exact Hid | exact Hm].
Defined.

(** X7: in every store reached from a new one, an encrypted map that is
    not empty, a master key that is present and the thoroughly-checked
    flag each imply [fUseCrypto]; a master key that is present is 32 bytes
    long; and every record sits under the identifier of its public key. *)
Theorem X7_reachable_store_coherent :
  forall (env : Collaborators) (ops : list Op) (s : CCryptoKeyStore),
    run env ops CCryptoKeyStore_new = Returned s ->
    (mapCryptedKeys s <> [] -> fUseCrypto s = true)
    /\ (vMasterKey s <> [] ->
        fUseCrypto s = true /\ length (vMasterKey s) = 32)
    /\ (fDecryptionThoroughlyChecked s = true -> fUseCrypto s = true)
    /\ Forall (fun e => fst e = GetID env (fst (snd e))) (mapCryptedKeys s).
Proof.
  intros env ops s Hrun.
  pose proof (run_keeps_coherent env ops new_store_coherent Hrun)
    as (H1 & H2 & H3).
  pose proof (run_keyed_by_id _ _ Hrun) as H4.
  auto.
Qed.

(** X7 at the end of the sample run. *)
Lemma X7_reachable_store_coherent_witness :
  length (vMasterKey (final_store (run toy ops_bulk CCryptoKeyStore_new)))
    = 32.
Proof.
  destruct (@X7_reachable_store_coherent toy ops_bulk
              (final_store (run toy ops_bulk CCryptoKeyStore_new)))
    as (_ & Hm & _); [vm_compute; reflexivity|].
  apply Hm. vm_compute. discriminate.
Defined.

(** X8: [NotifyStatusChanged] fires once in a [Lock] or an [Unlock] that
    returns true, and in no other call. *)
Theorem X8_status_notifications :
  forall (env : Collaborators) (op : Op) (s s' : CCryptoKeyStore) (r : bool),
    call env op s = Returned (r, s') ->
    nStatusChanged s'
      = nStatusChanged s + (if notifies op && r then 1 else 0).
Proof. intros env op s s' r. apply call_notifications. Qed.

(** X8 on an [Unlock] with the wrong master key. *)
Lemma X8_status_notifications_witness :
  nStatusChanged (snd (Lock store_encrypted))
    = nStatusChanged store_encrypted + 1
  /\ nStatusChanged store_encrypted = nStatusChanged store_encrypted + 0.
Proof.
  split.
  - apply (@X8_status_notifications toy OpLock store_encrypted
             (snd (Lock store_encrypted)) true).
    vm_compute. reflexivity.
  - apply (@X8_status_notifications toy (OpUnlock master1) store_encrypted
             store_encrypted false).
    vm_compute. reflexivity.
Defined.

(** X9: [fDecryptionThoroughlyChecked] is never cleared, and it is set by
    an [Unlock] that returns true and by no other call. *)
Theorem X9_thoroughly_checked_flag :
  forall (env : Collaborators) (op : Op) (s s' : CCryptoKeyStore) (r : bool),
    call env op s = Returned (r, s') ->
    fDecryptionThoroughlyChecked s'
      = fDecryptionThoroughlyChecked s
        || match op with OpUnlock _ => r | _ => false end.
Proof. intros env op s s' r. apply call_checked_flag. Qed.

(** X9 on a [Lock], which leaves the flag as it is. *)
Lemma X9_thoroughly_checked_flag_witness :
  fDecryptionThoroughlyChecked (snd (Lock store_reopened)) = true.
Proof.
  rewrite (@X9_thoroughly_checked_flag toy OpLock store_reopened
             (snd (Lock store_reopened)) true).
  - vm_compute. reflexivity.
  - vm_compute. reflexivity.
Defined.

(* ================================================================= *)
(** ** [SetCrypted], [Lock], and what a locked store refuses *)

Lemma set_fUseCrypto_same (s : CCryptoKeyStore) :
  set_fUseCrypto s (fUseCrypto s) = s.
Proof. destruct s; reflexivity. Qed.

(** X10: [SetCrypted] returns false exactly when the store is not
    encrypted and holds plaintext keys, and then changes nothing;
    otherwise the store is the same but with [fUseCrypto] set.  A second
    call returns what the first returned and changes nothing. *)
Theorem X10_SetCrypted_promotion :
  forall s : CCryptoKeyStore,
    (fst (SetCrypted s) = false
       <-> fUseCrypto s = false /\ mapKeys s <> [])
    /\ (fst (SetCrypted s) = false -> snd (SetCrypted s) = s)
    /\ (fst (SetCrypted s) = true ->
        snd (SetCrypted s) = set_fUseCrypto s true)
    /\ SetCrypted (snd (SetCrypted s)) = SetCrypted s.
Proof.
  intros s. unfold SetCrypted.
  destruct (fUseCrypto s) eqn:Hc.
  - cbn [fst snd]. rewrite Hc.
    split; [split; [discriminate | intros [H _]; discriminate H]|].
    split; [reflexivity|]. split; [|reflexivity].
    intros _. rewrite <- Hc. symmetry. apply set_fUseCrypto_same.
  - destruct (mapKeys s) as [|e l] eqn:Hk; cbn [map_empty negb fst snd].
    + split; [split; [discriminate | intros [_ H]; now elim H]|].
      split; [discriminate|]. split; [reflexivity|].
      reflexivity.
    + rewrite Hc, Hk. cbn [map_empty negb].
      split; [split; [intros _; split; [reflexivity | discriminate]
                     | reflexivity]|].
      split; [reflexivity|]. split; [discriminate | reflexivity].
Qed.

Section LockFacts.

Variable env : Collaborators.

Lemma locked_refuses (s : CCryptoKeyStore) :
  IsLocked s = true ->
  (forall key pub, AddKeyPubKey env s key pub = (false, s))
  /\ (forall p, AddPaperKey env s p = (false, s))
  /\ (forall p, AddPinCode env s p = (false, s))
  /\ (forall m, EncryptPaperKey env s m = (false, s))
  /\ (forall m, EncryptPinCode env s m = (false, s))
  /\ (forall m, EncryptKeys env s m = (false, s))
  /\ GetCryptedPaperKey s = None
  /\ GetCryptedPinCode s = None
  /\ (forall id, GetKey env s id = None).
Proof.
  intros HL. destruct (IsLocked_true _ HL) as [Hc Hm].
  unfold AddKeyPubKey, AddPaperKey, AddPinCode, EncryptPaperKey,
    EncryptPinCode, EncryptKeys, GetCryptedPaperKey, GetCryptedPinCode.
  rewrite HL. unfold IsCrypted. rewrite Hc. cbn [negb].
  rewrite orb_true_r.
  repeat split; auto.
  intros id. now apply GetKey_locked.
Qed.

End LockFacts.

(** X11: [Lock] returns what [SetCrypted] returns; when that is false the
    store is unchanged; when it is true the store is locked, the master
    key is gone, the encrypted map is as it was, no identifier yields a
    key, and one notification was fired.  A second [Lock] succeeds and
    changes nothing but the notification count. *)
Theorem X11_Lock_clears_master_key :
  forall (env : Collaborators) (s : CCryptoKeyStore),
    fst (Lock s) = fst (SetCrypted s)
    /\ (fst (Lock s) = false -> snd (Lock s) = s)
    /\ (fst (Lock s) = true ->
        IsLocked (snd (Lock s)) = true
        /\ vMasterKey (snd (Lock s)) = []
        /\ mapCryptedKeys (snd (Lock s)) = mapCryptedKeys s
        /\ nStatusChanged (snd (Lock s)) = S (nStatusChanged s)
        /\ (forall id, GetKey env (snd (Lock s)) id = None)
        /\ Lock (snd (Lock s))
           = (true, NotifyStatusChanged (snd (Lock s)))).
Proof.
  intros env s. unfold Lock at 1 2 3 4.
  destruct (SetCrypted s) as [ok s1] eqn:E.
  pose proof (SetCrypted_effect _ E) as Heff.
  destruct ok; cbn [negb fst snd].
  - split; [reflexivity|]. split; [discriminate|]. intros _.
    assert (Hc1 : fUseCrypto s1 = true).
    { destruct Heff as [(Hf & _) | [(_ & -> & Hc) | (_ & -> & _)]];
        [discriminate | exact Hc | reflexivity]. }
    assert (Hm1 : mapCryptedKeys s1 = mapCryptedKeys s).
    { destruct Heff as [(_ & -> & _) | [(_ & -> & _) | (_ & -> & _)]];
        reflexivity. }
    assert (Hn1 : nStatusChanged s1 = nStatusChanged s).
    { destruct Heff as [(_ & -> & _) | [(_ & -> & _) | (_ & -> & _)]];
        reflexivity. }
    unfold Lock. rewrite E. cbn [negb snd].
    split; [unfold IsLocked, IsCrypted; cbn; now rewrite Hc1|].
    split; [reflexivity|]. split; [exact Hm1|].
    split; [cbn; now rewrite Hn1|].
    split; [intros id; apply GetKey_locked; [exact Hc1 | reflexivity]|].
    rewrite SetCrypted_crypted by exact Hc1. reflexivity.
  - split; [reflexivity|]. split; [|discriminate]. intros _.
    destruct Heff as [(_ & -> & _) | [(Hf & _) | (Hf & _)]];
      [reflexivity | discriminate | discriminate].
Qed.

(** X12: a locked store refuses every operation that needs the master
    key: [AddKeyPubKey], [AddPaperKey], [AddPinCode], [EncryptPaperKey],
    [EncryptPinCode] and [EncryptKeys] return false and leave the store as
    it was, and [GetKey], [GetCryptedPaperKey] and [GetCryptedPinCode]
    fail. *)
Theorem X12_locked_store_refuses :
  forall (env : Collaborators) (s : CCryptoKeyStore),
    IsLocked s = true ->
    (forall key pub, AddKeyPubKey env s key pub = (false, s))
    /\ (forall p, AddPaperKey env s p = (false, s))
    /\ (forall p, AddPinCode env s p = (false, s))
    /\ (forall m, EncryptPaperKey env s m = (false, s))
    /\ (forall m, EncryptPinCode env s m = (false, s))
    /\ (forall m, EncryptKeys env s m = (false, s))
    /\ GetCryptedPaperKey s = None
    /\ GetCryptedPinCode s = None
    /\ (forall id, GetKey env s id = None).
Proof. intros env s. apply locked_refuses. Qed.

(** X12 on the sample store, encrypted and locked. *)
Lemma X12_locked_store_refuses_witness :
  AddKeyPubKey toy (snd (Lock store_encrypted)) key3 (toy_pubkey key3)
    = (false, snd (Lock store_encrypted))
  /\ GetKey toy (snd (Lock store_encrypted)) (toy_id pub1) = None.
Proof.
  destruct (@X12_locked_store_refuses toy (snd (Lock store_encrypted)))
    as (Ha & _ & _ & _ & _ & _ & _ & _ & Hg); [vm_compute; reflexivity|].
  split; [apply Ha | apply Hg].
Defined.

(* ================================================================= *)
(** ** [Unlock]: the fast path and the thorough walk *)

Lemma inspected_unchecked_all (A : Type) (ok : A -> bool) (l : list A) :
  forallb ok (inspected ok false l) = true -> forallb ok l = true.
Proof.
  induction l as [|e l IH]; [reflexivity|].
  cbn [inspected]. destruct (ok e) eqn:E; cbn [forallb]; rewrite E.
  - cbn [andb]. exact IH.
  - discriminate.
Qed.

(** X13: once the store has been thoroughly checked, [Unlock] looks at the
    first record only: it never aborts, it fails on an empty map, and
    otherwise it succeeds exactly when that record decrypts, whatever the
    records behind it hold. *)
Theorem X13_Unlock_fast_path :
  forall (env : Collaborators) (s : CCryptoKeyStore) (m : CKeyingMaterial),
    fUseCrypto s = true ->
    fDecryptionThoroughlyChecked s = true ->
    Unlock env s m <> Aborted
    /\ Unlock env s m
       = match mapCryptedKeys s with
         | [] => Returned (false, s)
         | e :: _ =>
             if entry_decrypts env m e
             then Returned (true,
                    NotifyStatusChanged
                      (set_fDecryptionThoroughlyChecked
                         (set_vMasterKey s m) true))
             else Returned (false, s)
         end.
Proof.
  intros env s m Hc Hchk.
  unfold Unlock. rewrite SetCrypted_crypted by assumption. cbn [negb].
  rewrite Hchk.
  destruct (mapCryptedKeys s) as [|[id [pub ct]] l];
    cbn [Unlock_walk].
  - split; [discriminate | reflexivity].
  - unfold entry_decrypts. cbn [fst snd].
    destruct (DecryptKey env m ct pub); cbn [succeeded andb orb negb];
      split; try discriminate; reflexivity.
Qed.

(** X13 on the reopened sample store with a foreign record behind its own:
    the walk that would abort on a first [Unlock] now succeeds. *)
Lemma X13_Unlock_fast_path_witness :
  Unlock toy
    (snd (AddCryptedKey toy (snd (Lock store_reopened)) foreign_pub
            (zeros 48)))
    master0
  <> Aborted.
Proof.
  apply (@X13_Unlock_fast_path toy
           (snd (AddCryptedKey toy (snd (Lock store_reopened)) foreign_pub
                   (zeros 48)))
           master0); vm_compute; reflexivity.
Defined.

(** X14: an [Unlock] that returns true on a store not yet thoroughly
    checked has decrypted every record of the map, and afterwards
    [GetKey] succeeds for every identifier the map holds. *)
Theorem X14_first_Unlock_is_thorough :
  forall (env : Collaborators) (s s' : CCryptoKeyStore)
         (m : CKeyingMaterial),
    fUseCrypto s = true ->
    fDecryptionThoroughlyChecked s = false ->
    Unlock env s m = Returned (true, s') ->
    Forall (fun e => entry_decrypts env m e = true) (mapCryptedKeys s)
    /\ (forall id, map_find id (mapCryptedKeys s) <> None ->
        exists key, GetKey env s' id = Some key).
Proof.
  intros env s s' m Hc Hchk Hu.
  pose proof (@Unlock_true_inv env s s' m Hc Hu) as [_ Hall].
  rewrite Hchk in Hall. apply inspected_unchecked_all in Hall.
  rewrite forallb_forall in Hall.
  assert (HF : Forall (fun e => entry_decrypts env m e = true)
                 (mapCryptedKeys s))
    by (apply Forall_forall; exact Hall).
  split; [exact HF|].
  intros id Hin.
  destruct (Unlock_crypted_cases env s m Hc) as [Ha | [Hf | (Ht & _)]];
    rewrite Hu in *; try discriminate.
  injection Ht as ->.
  unfold GetKey, IsCrypted. cbn. rewrite Hc. cbn [negb].
  destruct (map_find id (mapCryptedKeys s)) as [[pub ct]|] eqn:Hfind;
    [|now elim Hin].
  apply map_find_In in Hfind. specialize (Hall _ Hfind).
  unfold entry_decrypts in Hall. cbn [fst snd] in Hall.
  destruct (DecryptKey env m ct pub) as [key|]; [|discriminate].
  now exists key.
Qed.

(** X14 on the sample store after [EncryptKeys] and [Lock]. *)
Lemma X14_first_Unlock_is_thorough_witness :
  exists key, GetKey toy store_reopened (toy_id pub2) = Some key.
Proof.
  destruct (@X14_first_Unlock_is_thorough toy (snd (Lock store_encrypted))
              store_reopened master0) as [_ Hg];
    try (vm_compute; reflexivity).
  apply Hg. vm_compute. discriminate.
Defined.

(* ================================================================= *)
(** ** [EncryptKeys]: success, and getting the keys back *)

Lemma map_assign_length_le (V : Type) (k : CKeyID) (v : V) (m : std_map V) :
  length (map_assign k v m) <= S (length m).
Proof.
  induction m as [|[k' v'] m IH]; cbn [map_assign length]; [lia|].
  destruct (N.compare k k'); cbn [length]; lia.
Qed.

Section EncryptKeysFacts.

Variable env : Collaborators.
Variable m : CKeyingMaterial.

Lemma EncryptKeys_loop_succeeds (rest : KeyMap) :
  length m = 32 ->
  (forall p, length (GetHash env p) = 32) ->
  forall s, fUseCrypto s = true ->
    exists s', EncryptKeys_loop env m rest s = (true, s').
Proof.
  intros Hm Hh.
  induction rest as [|[id key] rest IH]; intros s Hc;
    cbn [EncryptKeys_loop].
  - now exists s.
  - destruct (@EncryptSecret_succeeds env m (keydata key)
                (GetHash env (GetPubKey_of env key)) Hm (Hh _))
      as (ct & E & _).
    rewrite E, AddCryptedKey_crypted by assumption. cbn [negb].
    apply IH. exact Hc.
Qed.

Lemma EncryptKeys_loop_present (rest : KeyMap) :
  forall s s',
    fUseCrypto s = true ->
    EncryptKeys_loop env m rest s = (true, s') ->
    (forall id, map_find id (mapCryptedKeys s) <> None ->
                map_find id (mapCryptedKeys s') <> None)
    /\ (forall e, In e rest ->
                  map_find (key_id env (snd e)) (mapCryptedKeys s') <> None)
    /\ length (mapCryptedKeys s')
       <= length (mapCryptedKeys s) + length rest.
Proof.
  induction rest as [|[id key] rest IH]; intros s s' Hc H;
    cbn [EncryptKeys_loop] in H.
  - injection H as <-. split; [auto|]. split; [intros e []|]. cbn. lia.
  - destruct (EncryptSecret env m (keydata key)
                (GetHash env (GetPubKey_of env key))) as [ct|];
      [|discriminate].
    rewrite AddCryptedKey_crypted in H by assumption. cbn [negb] in H.
    apply IH in H; [|exact Hc].
    cbn [mapCryptedKeys set_mapCryptedKeys] in H.
    destruct H as (Hkeep & Hrest & Hlen).
    assert (Hstep : forall id',
               map_find id' (mapCryptedKeys s) <> None ->
               map_find id'
                 (map_assign (GetID env (GetPubKey_of env key))
                    (GetPubKey_of env key, ct) (mapCryptedKeys s)) <> None).
    { intros id' Hin.
      destruct (N.eq_dec id' (GetID env (GetPubKey_of env key))) as [->|Hne].
      - rewrite map_find_assign_same. discriminate.
      - now rewrite map_find_assign_other. }
    split; [intros id' Hin; apply Hkeep, Hstep, Hin|].
    split.
    + intros e [<-|Hin]; [|now apply Hrest].
      cbn [snd]. apply Hkeep. unfold key_id.
      rewrite map_find_assign_same. discriminate.
    + pose proof (map_assign_length_le
                    (GetID env (GetPubKey_of env key))
                    (GetPubKey_of env key, ct) (mapCryptedKeys s)).
      cbn [length]. lia.
Qed.

(** Every record the loop writes is the encryption of one of the keys
    [all], filed under that key's public key and identifier. *)
Lemma EncryptKeys_loop_origin (all : list CKey) (rest : KeyMap) :
  forall s ok s',
    fUseCrypto s = true ->
    incl (map_values rest) all ->
    Forall (record_from_keys env m all) (mapCryptedKeys s) ->
    EncryptKeys_loop env m rest s = (ok, s') ->
    Forall (record_from_keys env m all) (mapCryptedKeys s').
Proof.
  induction rest as [|[id key] rest IH]; intros s ok s' Hc Hincl Hall H;
    cbn [EncryptKeys_loop] in H.
  - injection H as _ <-. exact Hall.
  - destruct (EncryptSecret env m (keydata key)
                (GetHash env (GetPubKey_of env key))) as [ct|] eqn:E.
    2:{ injection H as _ <-. exact Hall. }
    rewrite AddCryptedKey_crypted in H by assumption. cbn [negb] in H.
    apply IH in H; auto.
    + intros k Hk. apply Hincl. now right.
    + cbn [mapCryptedKeys set_mapCryptedKeys].
      apply map_assign_Forall; [|exact Hall].
      exists key. cbn [fst snd]. unfold key_id. repeat split; auto.
      apply Hincl. now left.
Qed.

Hypothesis laws : CollaboratorLaws env.

(** After a successful [EncryptKeys], in any encrypted store that holds
    the resulting map and the master key, [GetKey] gives every original
    key back under its identifier, provided the keys are well formed and
    have different identifiers. *)
Lemma EncryptKeys_then_GetKey (s s1 s3 : CCryptoKeyStore) :
  Forall (fun e => length (keydata (snd e)) = 32) (mapKeys s) ->
  (forall e1 e2, In e1 (mapKeys s) -> In e2 (mapKeys s) ->
     key_id env (snd e1) = key_id env (snd e2) -> snd e1 = snd e2) ->
  EncryptKeys env s m = (true, s1) ->
  fUseCrypto s3 = true ->
  vMasterKey s3 = m ->
  mapCryptedKeys s3 = mapCryptedKeys s1 ->
  forall e, In e (mapKeys s) -> GetKey env s3 (key_id env (snd e)) = Some (snd e).
Proof.
  intros Hkeys Hinj He Hc3 Hm3 Hmap3 e Hin.
  unfold EncryptKeys in He.
  destruct (negb (map_empty (mapCryptedKeys s)) || IsCrypted s) eqn:Hpre;
    [discriminate|].
  apply orb_false_elim in Hpre. destruct Hpre as [Hempty _].
  apply negb_map_empty_false in Hempty.
  cbn [mapKeys set_fUseCrypto] in He.
  destruct (EncryptKeys_loop env m (mapKeys s) (set_fUseCrypto s true))
    as [ok s'] eqn:Hloop.
  destruct ok; cbn [negb] in He; [|discriminate].
  injection He as <-.
  pose proof (@EncryptKeys_loop_present (mapKeys s) (set_fUseCrypto s true)
                s' eq_refl Hloop) as (_ & Hpres & _).
  assert (Horigin : Forall (record_from_keys env m (map_values (mapKeys s)))
                      (mapCryptedKeys s')).
  { eapply (@EncryptKeys_loop_origin (map_values (mapKeys s)) (mapKeys s)
              (set_fUseCrypto s true) true s' eq_refl);
      [apply incl_refl | | exact Hloop].
    cbn [mapCryptedKeys set_fUseCrypto]. rewrite Hempty. constructor. }
  unfold GetKey, IsCrypted. rewrite Hc3, Hmap3, Hm3. cbn [negb].
  cbn [mapCryptedKeys set_mapKeys].
  specialize (Hpres e Hin).
  destruct (map_find (key_id env (snd e)) (mapCryptedKeys s'))
    as [[pub ct]|] eqn:Hfind; [|now elim Hpres].
  apply map_find_In in Hfind.
  rewrite Forall_forall in Horigin.
  destruct (Horigin _ Hfind) as (key & Hkin & Hid & Hpub & Henc).
  cbn [fst snd] in Hid, Hpub, Henc.
  unfold map_values in Hkin. apply in_map_iff in Hkin.
  destruct Hkin as (e' & He' & Hin').
  assert (Heq : snd e = snd e').
  { apply Hinj; auto. now rewrite He'. }
  rewrite He' in Heq. subst key. subst pub.
  rewrite Forall_forall in Hkeys.
  rewrite <- Heq in *.
  apply (DecryptKey_EncryptSecret laws); [apply Hkeys; exact Hin | exact Henc].
Qed.

End EncryptKeysFacts.

(** X15: on a store that is not encrypted and has no encrypted record,
    [EncryptKeys] under a 32-byte master key always succeeds (public-key
    hashes being 32 bytes): afterwards [fUseCrypto] is set, [mapKeys] is
    empty, every key has a record under the identifier of its public key,
    and there are no more records than there were keys.  The master key is
    not stored: the store comes out locked unless it held a master key
    before. *)
Theorem X15_EncryptKeys_succeeds :
  forall (env : Collaborators) (s : CCryptoKeyStore) (m : CKeyingMaterial),
    fUseCrypto s = false ->
    mapCryptedKeys s = [] ->
    length m = 32 ->
    (forall p, length (GetHash env p) = 32) ->
    exists s',
      EncryptKeys env s m = (true, s')
      /\ fUseCrypto s' = true
      /\ mapKeys s' = []
      /\ vMasterKey s' = vMasterKey s
      /\ (vMasterKey s = [] -> IsLocked s' = true)
      /\ (forall e, In e (mapKeys s) ->
          map_find (key_id env (snd e)) (mapCryptedKeys s') <> None)
      /\ length (mapCryptedKeys s') <= length (mapKeys s).
Proof.
  intros env s m Hc Hmap Hm Hh.
  unfold EncryptKeys, IsCrypted. rewrite Hc, Hmap. cbn [map_empty negb orb].
  destruct (@EncryptKeys_loop_succeeds env m (mapKeys s) Hm Hh
              (set_fUseCrypto s true) eq_refl) as [s1 Hloop].
  cbn [mapKeys set_fUseCrypto]. rewrite Hloop. cbn [negb].
  pose proof (@EncryptKeys_loop_frame env m (mapKeys s)
                (set_fUseCrypto s true) true s1 eq_refl Hloop)
    as (Hc1 & _ & Hv1 & _).
  pose proof (@EncryptKeys_loop_present env m (mapKeys s)
                (set_fUseCrypto s true) s1 eq_refl Hloop)
    as (_ & Hpres & Hlen).
  cbn [mapCryptedKeys vMasterKey set_fUseCrypto] in Hv1, Hlen.
  rewrite Hmap in Hlen. cbn [length] in Hlen.
  eexists. split; [reflexivity|].
  cbn [fUseCrypto mapKeys vMasterKey mapCryptedKeys set_mapKeys].
  repeat split; auto.
  intros Hv. unfold IsLocked, IsCrypted.
  cbn [fUseCrypto vMasterKey set_mapKeys]. now rewrite Hc1, Hv1, Hv.
Qed.

(** X15 on the sample store with two keys. *)
Lemma X15_EncryptKeys_succeeds_witness :
  exists s',
    EncryptKeys toy store_two_keys master0 = (true, s')
    /\ mapKeys s' = []
    /\ IsLocked s' = true.
Proof.
  destruct (@X15_EncryptKeys_succeeds toy store_two_keys master0)
    as (s' & He & _ & Hk & _ & Hl & _).
  - reflexivity.
  - reflexivity.
  - reflexivity.
  - intros p. apply fit_length.
  - exists s'. split; [exact He|]. split; [exact Hk|].
    apply Hl. reflexivity.
Defined.

(** X16: after a successful [EncryptKeys] under [m], a [Lock] and a
    successful [Unlock] with [m], [GetKey] returns every key the plain map
    held, under the identifier of its public key, provided those keys are
    32 bytes long and no two of them share an identifier. *)
Theorem X16_EncryptKeys_Unlock_recovers_keys :
  forall (env : Collaborators) (s s1 s3 : CCryptoKeyStore)
         (m : CKeyingMaterial),
    CollaboratorLaws env ->
    Forall (fun e => length (keydata (snd e)) = 32) (mapKeys s) ->
    (forall e1 e2, In e1 (mapKeys s) -> In e2 (mapKeys s) ->
       key_id env (snd e1) = key_id env (snd e2) -> snd e1 = snd e2) ->
    EncryptKeys env s m = (true, s1) ->
    Unlock env (snd (Lock s1)) m = Returned (true, s3) ->
    forall e, In e (mapKeys s) ->
      GetKey env s3 (key_id env (snd e)) = Some (snd e).
Proof.
  intros env s s1 s3 m laws Hkeys Hinj He Hu.
  assert (Hc1 : fUseCrypto s1 = true).
  { destruct (EncryptKeys_effect _ _ _ He) as [(_ & H & _) | (_ & H & _)];
      [discriminate | exact H]. }
  rewrite (Lock_crypted _ Hc1) in Hu. cbn [snd] in Hu.
  assert (Hc2 : fUseCrypto (NotifyStatusChanged (set_vMasterKey s1 []))
                = true) by exact Hc1.
  destruct (Unlock_crypted_cases env _ m Hc2) as [Ha | [Hf | (Ht & _)]];
    rewrite Hu in *; try discriminate.
  injection Ht as ->.
  apply (@EncryptKeys_then_GetKey env m laws s s1); auto.
Qed.

(** X16 on the sample store with two keys. *)
Lemma X16_EncryptKeys_Unlock_recovers_keys_witness :
  GetKey toy store_reopened (key_id toy key1) = Some key1
  /\ GetKey toy store_reopened (key_id toy key2) = Some key2.
Proof.
  assert (Hk : Forall (fun e : CKeyID * CKey => length (keydata (snd e)) = 32)
                 (mapKeys store_two_keys))
    by (repeat constructor).
  assert (Hinj : forall e1 e2 : CKeyID * CKey,
             In e1 (mapKeys store_two_keys) ->
             In e2 (mapKeys store_two_keys) ->
             key_id toy (snd e1) = key_id toy (snd e2) -> snd e1 = snd e2).
  { intros e1 e2 [<-|[<-|[]]] [<-|[<-|[]]] H;
      try reflexivity; vm_compute in H; discriminate H. }
  pose proof (@X16_EncryptKeys_Unlock_recovers_keys toy store_two_keys
                store_encrypted store_reopened master0 toy_laws Hk Hinj
                eq_refl eq_refl) as H.
  split.
  - apply (H (toy_id pub1, key1)). left. reflexivity.
  - apply (H (toy_id pub2, key2)). right. left. reflexivity.
Defined.

(* ================================================================= *)
(** ** The paper key and the PIN code *)

Section EnvelopeStoreFacts.

Variable env : Collaborators.
Hypothesis laws : CollaboratorLaws env.
Hypothesis sha256_length : forall x, length (SHA256 env x) = 32.

Lemma label_roundtrip (m X : CKeyingMaterial) (label ct : bytes) :
  X <> [] ->
  EncryptSecret env m X (DoubleHashOfString env label) = Some ct ->
  DecryptSecret env m ct (DoubleHashOfString env label) = Some X.
Proof.
  intros HX He.
  apply (DecryptSecret_EncryptSecret laws); auto.
  now apply DoubleHashOfString_length.
Qed.

Lemma label_encrypts (m X : CKeyingMaterial) (label : bytes) :
  length m = 32 ->
  exists ct,
    EncryptSecret env m X (DoubleHashOfString env label) = Some ct
    /\ length ct = 16 * (length X / 16 + 1).
Proof.
  intros Hm. apply EncryptSecret_succeeds; [exact Hm|].
  now apply DoubleHashOfString_length.
Qed.

Lemma not_locked_with_master (s : CCryptoKeyStore) :
  fUseCrypto s = true -> length (vMasterKey s) = 32 -> IsLocked s = false.
Proof.
  intros Hc Hm. unfold IsLocked, IsCrypted. now rewrite Hc, Hm.
Qed.

Lemma AddPaperKey_GetPaperKey (s : CCryptoKeyStore) (p : SecureString) :
  fUseCrypto s = true -> length (vMasterKey s) = 32 ->
  paperKey s = [] -> p <> [] ->
  exists ct,
    AddPaperKey env s p = (true, set_vchCryptedPaperKey s ct)
    /\ length ct = 16 * (length p / 16 + 1)
    /\ GetPaperKey env (set_vchCryptedPaperKey s ct) = Some p
    /\ GetPaperKey env (snd (Lock (set_vchCryptedPaperKey s ct))) = None.
Proof.
  intros Hc Hm Hp HX.
  destruct (@label_encrypts (vMasterKey s) p label_paperkey Hm)
    as (ct & He & Hl).
  exists ct.
  unfold AddPaperKey. rewrite (@not_locked_with_master s Hc Hm).
  unfold IsCrypted. rewrite Hc, He. cbn [negb].
  unfold AddCryptedPaperKey. rewrite SetCrypted_crypted by assumption.
  cbn [negb]. split; [reflexivity|]. split; [exact Hl|]. split.
  - unfold GetPaperKey, IsCrypted, set_vchCryptedPaperKey.
    cbn [paperKey fUseCrypto vMasterKey vchCryptedPaperKey].
    rewrite Hp, Hc. cbn [length Nat.eqb negb].
    now apply label_roundtrip.
  - rewrite Lock_crypted by exact Hc.
    unfold GetPaperKey, IsCrypted, NotifyStatusChanged, set_vMasterKey,
      set_vchCryptedPaperKey.
    cbn [snd paperKey fUseCrypto vMasterKey vchCryptedPaperKey].
    rewrite Hp, Hc. cbn [length Nat.eqb negb].
    apply DecryptSecret_bad_master. discriminate.
Qed.

Lemma AddPinCode_GetPinCode (s : CCryptoKeyStore) (p : SecureString) :
  fUseCrypto s = true -> length (vMasterKey s) = 32 ->
  pinCode s = [] -> p <> [] ->
  exists ct,
    AddPinCode env s p = (true, set_vchCryptedPinCode s ct)
    /\ length ct = 16 * (length p / 16 + 1)
    /\ GetPinCode env (set_vchCryptedPinCode s ct) = Some p
    /\ GetPinCode env (snd (Lock (set_vchCryptedPinCode s ct))) = None.
Proof.
  intros Hc Hm Hp HX.
  destruct (@label_encrypts (vMasterKey s) p label_pincode Hm)
    as (ct & He & Hl).
  exists ct.
  unfold AddPinCode. rewrite (@not_locked_with_master s Hc Hm).
  unfold IsCrypted. rewrite Hc, He. cbn [negb].
  unfold AddCryptedPinCode. rewrite SetCrypted_crypted by assumption.
  cbn [negb]. split; [reflexivity|]. split; [exact Hl|]. split.
  - unfold GetPinCode, IsCrypted, set_vchCryptedPinCode.
    cbn [pinCode fUseCrypto vMasterKey vchCryptedPinCode].
    rewrite Hp, Hc. cbn [length Nat.eqb negb].
    now apply label_roundtrip.
  - rewrite Lock_crypted by exact Hc.
    unfold GetPinCode, IsCrypted, NotifyStatusChanged, set_vMasterKey,
      set_vchCryptedPinCode.
    cbn [snd pinCode fUseCrypto vMasterKey vchCryptedPinCode].
    rewrite Hp, Hc. cbn [length Nat.eqb negb].
    apply DecryptSecret_bad_master. discriminate.
Qed.

Lemma EncryptPaperKey_wraps (s : CCryptoKeyStore) (m : CKeyingMaterial) :
  IsLocked s = false -> paperKey s <> [] -> length m = 32 ->
  exists ct,
    EncryptPaperKey env s m
      = (true, set_paperKey (set_vchCryptedPaperKey s ct) [])
    /\ DecryptSecret env m ct (DoubleHashOfString env label_paperkey)
       = Some (paperKey s).
Proof.
  intros HL Hp Hm.
  destruct (@label_encrypts m (paperKey s) label_paperkey Hm)
    as (ct & He & _).
  exists ct. unfold EncryptPaperKey. rewrite HL.
  unfold GetPaperKey, CBasicKeyStore_GetPaperKey.
  destruct (paperKey s) as [|b p] eqn:E; [now elim Hp|].
  cbn [length Nat.eqb negb]. rewrite He.
  split; [reflexivity|]. now apply label_roundtrip.
Qed.

Lemma EncryptPinCode_wraps (s : CCryptoKeyStore) (m : CKeyingMaterial) :
  IsLocked s = false -> pinCode s <> [] -> length m = 32 ->
  exists ct,
    EncryptPinCode env s m
      = (true, set_pinCode (set_vchCryptedPinCode s ct) [])
    /\ DecryptSecret env m ct (DoubleHashOfString env label_pincode)
       = Some (pinCode s).
Proof.
  intros HL Hp Hm.
  destruct (@label_encrypts m (pinCode s) label_pincode Hm)
    as (ct & He & _).
  exists ct. unfold EncryptPinCode. rewrite HL.
  unfold GetPinCode, CBasicKeyStore_GetPinCode.
  destruct (pinCode s) as [|b p] eqn:E; [now elim Hp|].
  cbn [length Nat.eqb negb]. rewrite He.
  split; [reflexivity|]. now apply label_roundtrip.
Qed.

End EnvelopeStoreFacts.

(** X17: on an encrypted store that holds a 32-byte master key and caches
    no plaintext, [AddPaperKey] (and likewise [AddPinCode]) of a secret
    that is not empty succeeds and changes only the stored ciphertext,
    whose length is that of the secret rounded up to the next multiple of
    16 above it; [GetPaperKey] ([GetPinCode]) then returns the secret, and
    fails once the store is locked. *)
Theorem X17_paper_key_and_pin_roundtrip :
  forall (env : Collaborators) (s : CCryptoKeyStore) (p q : SecureString),
    CollaboratorLaws env ->
    (forall x, length (SHA256 env x) = 32) ->
    fUseCrypto s = true ->
    length (vMasterKey s) = 32 ->
    paperKey s = [] -> pinCode s = [] ->
    p <> [] -> q <> [] ->
    (exists ct,
       AddPaperKey env s p = (true, set_vchCryptedPaperKey s ct)
       /\ length ct = 16 * (length p / 16 + 1)
       /\ GetPaperKey env (set_vchCryptedPaperKey s ct) = Some p
       /\ GetPaperKey env (snd (Lock (set_vchCryptedPaperKey s ct))) = None)
    /\ (exists ct,
          AddPinCode env s q = (true, set_vchCryptedPinCode s ct)
          /\ length ct = 16 * (length q / 16 + 1)
          /\ GetPinCode env (set_vchCryptedPinCode s ct) = Some q
          /\ GetPinCode env (snd (Lock (set_vchCryptedPinCode s ct)))
             = None).
Proof.
  intros env s p q laws Hsha Hc Hm Hp Hq HP HQ. split.
  - now apply AddPaperKey_GetPaperKey.
  - now apply AddPinCode_GetPinCode.
Qed.

(** X17 on the reopened sample store. *)
Lemma X17_paper_key_and_pin_roundtrip_witness :
  (exists ct,
     AddPaperKey toy store_reopened label_paperkey
       = (true, set_vchCryptedPaperKey store_reopened ct)
     /\ GetPaperKey toy (set_vchCryptedPaperKey store_reopened ct)
        = Some label_paperkey)
  /\ (exists ct,
        AddPinCode toy store_reopened pin_1234
          = (true, set_vchCryptedPinCode store_reopened ct)
        /\ GetPinCode toy (set_vchCryptedPinCode store_reopened ct)
           = Some pin_1234).
Proof.
  destruct (@X17_paper_key_and_pin_roundtrip toy store_reopened
              label_paperkey pin_1234 toy_laws)
    as [(ct & Ha & _ & Hg & _) (ct' & Ha' & _ & Hg' & _)];
    try reflexivity; try discriminate.
  - intros x. apply fit_length.
  - split; [exists ct | exists ct']; auto.
Defined.

(** X18: on a store that is not locked, [EncryptPaperKey] (and likewise
    [EncryptPinCode]) under a 32-byte master key turns a cached plaintext
    that is not empty into a stored ciphertext that decrypts back to it
    under that master key, and wipes the cache; it touches nothing else,
    [fUseCrypto] included. *)
Theorem X18_EncryptPaperKey_and_PinCode :
  forall (env : Collaborators) (s : CCryptoKeyStore) (m : CKeyingMaterial),
    CollaboratorLaws env ->
    (forall x, length (SHA256 env x) = 32) ->
    IsLocked s = false ->
    length m = 32 ->
    (paperKey s <> [] ->
     exists ct,
       EncryptPaperKey env s m
         = (true, set_paperKey (set_vchCryptedPaperKey s ct) [])
       /\ DecryptSecret env m ct (DoubleHashOfString env label_paperkey)
          = Some (paperKey s))
    /\ (pinCode s <> [] ->
        exists ct,
          EncryptPinCode env s m
            = (true, set_pinCode (set_vchCryptedPinCode s ct) [])
          /\ DecryptSecret env m ct (DoubleHashOfString env label_pincode)
             = Some (pinCode s)).
Proof.
  intros env s m laws Hsha HL Hm. split; intros Hne.
  - now apply EncryptPaperKey_wraps.
  - now apply EncryptPinCode_wraps.
Qed.

(** X18 on a new store that was given a paper key. *)
Lemma X18_EncryptPaperKey_and_PinCode_witness :
  exists ct,
    EncryptPaperKey toy
      (snd (AddPaperKey toy CCryptoKeyStore_new label_paperkey)) master0
    = (true,
       set_paperKey
         (set_vchCryptedPaperKey
            (snd (AddPaperKey toy CCryptoKeyStore_new label_paperkey)) ct)
         [])
    /\ DecryptSecret toy master0 ct
         (DoubleHashOfString toy label_paperkey)
       = Some label_paperkey.
Proof.
  destruct (@X18_EncryptPaperKey_and_PinCode toy
              (snd (AddPaperKey toy CCryptoKeyStore_new label_paperkey))
              master0 toy_laws) as [Hp _].
  - intros x. apply fit_length.
  - reflexivity.
  - reflexivity.
  - apply Hp. discriminate.
Defined.

(** X19: [AddCryptedPaperKey] and [AddCryptedPinCode] return what
    [SetCrypted] returns and verify nothing; when they fail the store is
    unchanged, and when they succeed the store is encrypted and
    [GetCryptedPaperKey] ([GetCryptedPinCode]) returns the blob just
    stored unless the store is locked or the blob is empty, in which case
    it fails. *)
Theorem X19_crypted_blob_accessors :
  forall (s : CCryptoKeyStore) (c : CKeyingMaterial),
    fst (AddCryptedPaperKey s c) = fst (SetCrypted s)
    /\ fst (AddCryptedPinCode s c) = fst (SetCrypted s)
    /\ (fst (SetCrypted s) = false ->
        snd (AddCryptedPaperKey s c) = s /\ snd (AddCryptedPinCode s c) = s)
    /\ (fst (SetCrypted s) = true ->
        fUseCrypto (snd (AddCryptedPaperKey s c)) = true
        /\ fUseCrypto (snd (AddCryptedPinCode s c)) = true
        /\ GetCryptedPaperKey (snd (AddCryptedPaperKey s c))
           = (if (length (vMasterKey s) =? 0) || (length c =? 0)
              then None else Some c)
        /\ GetCryptedPinCode (snd (AddCryptedPinCode s c))
           = (if (length (vMasterKey s) =? 0) || (length c =? 0)
              then None else Some c)).
Proof.
  intros s c. unfold AddCryptedPaperKey, AddCryptedPinCode.
  destruct (SetCrypted s) as [ok s1] eqn:E.
  pose proof (SetCrypted_effect _ E) as Heff.
  destruct ok; cbn [negb fst snd].
  - split; [reflexivity|]. split; [reflexivity|].
    split; [discriminate|]. intros _.
    assert (Hc1 : fUseCrypto s1 = true).
    { destruct Heff as [(Hf & _) | [(_ & -> & Hc) | (_ & -> & _)]];
        [discriminate | exact Hc | reflexivity]. }
    assert (Hm1 : vMasterKey s1 = vMasterKey s).
    { destruct Heff as [(_ & -> & _) | [(_ & -> & _) | (_ & -> & _)]];
        reflexivity. }
    unfold GetCryptedPaperKey, GetCryptedPinCode, IsLocked, IsCrypted.
    cbn [fUseCrypto vMasterKey vchCryptedPaperKey vchCryptedPinCode
         set_vchCryptedPaperKey set_vchCryptedPinCode].
    rewrite Hc1, Hm1. cbn [negb].
    repeat split; destruct (length (vMasterKey s) =? 0); reflexivity.
  - split; [reflexivity|]. split; [reflexivity|].
    split; [|discriminate]. intros _.
    destruct Heff as [(_ & -> & _) | [(Hf & _) | (Hf & _)]];
      try discriminate. auto.
Qed.

Section CacheFacts.

Variable env : Collaborators.

Lemma DecryptPaperKey_caches (s : CCryptoKeyStore) (p : SecureString) :
  fUseCrypto s = true -> GetPaperKey env s = Some p -> p <> [] ->
  paperKey (DecryptPaperKey env s) = p
  /\ GetPaperKey env (DecryptPaperKey env s) = Some p
  /\ IsLocked (snd (Lock (DecryptPaperKey env s))) = true
  /\ GetPaperKey env (snd (Lock (DecryptPaperKey env s))) = Some p.
Proof.
  intros Hc Hg Hp. unfold DecryptPaperKey. rewrite Hg.
  assert (Hc' : fUseCrypto (set_paperKey s p) = true) by exact Hc.
  rewrite (Lock_crypted _ Hc').
  destruct p as [|b p]; [now elim Hp|].
  unfold GetPaperKey, CBasicKeyStore_GetPaperKey, IsLocked, IsCrypted,
    NotifyStatusChanged, set_vMasterKey, set_paperKey.
  cbn [snd paperKey fUseCrypto vMasterKey length Nat.eqb negb].
  rewrite Hc. auto.
Qed.

Lemma DecryptPinCode_caches (s : CCryptoKeyStore) (q : SecureString) :
  fUseCrypto s = true -> GetPinCode env s = Some q -> q <> [] ->
  pinCode (DecryptPinCode env s) = q
  /\ GetPinCode env (DecryptPinCode env s) = Some q
  /\ IsLocked (snd (Lock (DecryptPinCode env s))) = true
  /\ GetPinCode env (snd (Lock (DecryptPinCode env s))) = Some q.
Proof.
  intros Hc Hg Hp. unfold DecryptPinCode. rewrite Hg.
  assert (Hc' : fUseCrypto (set_pinCode s q) = true) by exact Hc.
  rewrite (Lock_crypted _ Hc').
  destruct q as [|b q]; [now elim Hp|].
  unfold GetPinCode, CBasicKeyStore_GetPinCode, IsLocked, IsCrypted,
    NotifyStatusChanged, set_vMasterKey, set_pinCode.
  cbn [snd pinCode fUseCrypto vMasterKey length Nat.eqb negb].
  rewrite Hc. auto.
Qed.

End CacheFacts.

(** X20: [DecryptPaperKey] (and likewise [DecryptPinCode]) copies a secret
    that [GetPaperKey] can read into the plaintext cache; from then on
    [GetPaperKey] answers from the cache, and it still does after [Lock]
    has removed the master key. *)
Theorem X20_decrypted_secret_stays_cached :
  forall (env : Collaborators) (s : CCryptoKeyStore),
    fUseCrypto s = true ->
    (forall p, GetPaperKey env s = Some p -> p <> [] ->
       paperKey (DecryptPaperKey env s) = p
       /\ GetPaperKey env (DecryptPaperKey env s) = Some p
       /\ IsLocked (snd (Lock (DecryptPaperKey env s))) = true
       /\ GetPaperKey env (snd (Lock (DecryptPaperKey env s))) = Some p)
    /\ (forall q, GetPinCode env s = Some q -> q <> [] ->
          pinCode (DecryptPinCode env s) = q
          /\ GetPinCode env (DecryptPinCode env s) = Some q
          /\ IsLocked (snd (Lock (DecryptPinCode env s))) = true
          /\ GetPinCode env (snd (Lock (DecryptPinCode env s))) = Some q).
Proof.
  intros env s Hc. split.
  - intros p. now apply DecryptPaperKey_caches.
  - intros q. now apply DecryptPinCode_caches.
Qed.

(** X20 on the reopened sample store after [AddPaperKey]. *)
Lemma X20_decrypted_secret_stays_cached_witness :
  let s := snd (AddPaperKey toy store_reopened label_paperkey) in
  IsLocked (snd (Lock (DecryptPaperKey toy s))) = true
  /\ GetPaperKey toy (snd (Lock (DecryptPaperKey toy s)))
     = Some label_paperkey.
Proof.
  cbv zeta.
  destruct (@X20_decrypted_secret_stays_cached toy
              (snd (AddPaperKey toy store_reopened label_paperkey)))
    as [Hp _]; [vm_compute; reflexivity|].
  destruct (Hp label_paperkey) as (_ & _ & Hl & Hg);
    [vm_compute; reflexivity | discriminate |].
  split; [exact Hl | exact Hg].
Defined.

(* ================================================================= *)
(** ** [GetPubKey], [DoubleHashOfString], and unlocking a new store *)

(** X21: a public key stored by a successful [AddCryptedKey] is returned
    by [GetPubKey] under its identifier, with or without the master key;
    and in an encrypted store, whenever [GetKey] returns a key for an
    identifier, [GetPubKey] returns that key's public key for it. *)
Theorem X21_GetPubKey_of_crypted_record :
  forall (env : Collaborators) (s : CCryptoKeyStore) (pub : CPubKey)
         (ct : bytes) (id : CKeyID) (key : CKey),
    (fst (AddCryptedKey env s pub ct) = true ->
     GetPubKey env (snd (AddCryptedKey env s pub ct)) (GetID env pub)
       = Some pub)
    /\ (fUseCrypto s = true -> GetKey env s id = Some key ->
        GetPubKey env s id = Some (GetPubKey_of env key)).
Proof.
  intros env s pub ct id key. split.
  - unfold AddCryptedKey.
    destruct (SetCrypted s) as [ok s1] eqn:E.
    pose proof (SetCrypted_effect _ E) as Heff.
    destruct ok; cbn [negb fst snd]; [|discriminate]. intros _.
    assert (Hc1 : fUseCrypto s1 = true).
    { destruct Heff as [(Hf & _) | [(_ & -> & Hc) | (_ & -> & _)]];
        [discriminate | exact Hc | reflexivity]. }
    unfold GetPubKey, IsCrypted, set_mapCryptedKeys.
    cbn [fUseCrypto mapCryptedKeys]. rewrite Hc1. cbn [negb].
    now rewrite map_find_assign_same.
  - intros Hc Hg. unfold GetKey, GetPubKey, IsCrypted in *.
    rewrite Hc in *. cbn [negb] in *.
    destruct (map_find id (mapCryptedKeys s)) as [[pub' ct']|];
      [|discriminate].
    apply DecryptKey_sound in Hg. destruct Hg as (_ & _ & _ & _ & Hp).
    now rewrite Hp.
Qed.

(** X21 on the locked sample store. *)
Lemma X21_GetPubKey_of_crypted_record_witness :
  GetPubKey toy
    (snd (AddCryptedKey toy (snd (Lock store_encrypted)) foreign_pub
            (zeros 48)))
    (GetID toy foreign_pub)
  = Some foreign_pub
  /\ GetPubKey toy store_reopened (toy_id pub1) = Some (GetPubKey_of toy key1).
Proof.
  split.
  - apply (@X21_GetPubKey_of_crypted_record toy (snd (Lock store_encrypted))
             foreign_pub (zeros 48) 0%N key1).
    vm_compute. reflexivity.
  - apply (@X21_GetPubKey_of_crypted_record toy store_reopened
             foreign_pub (zeros 48) (toy_id pub1) key1);
      vm_compute; reflexivity.
Defined.

(** X22: with 32-byte SHA-256 digests, [DoubleHashOfString] always yields
    32 bytes: all zero for the empty string, and the digest of the digest
    of the string otherwise. *)
Theorem X22_DoubleHashOfString_value :
  forall (env : Collaborators) (str : bytes),
    (forall x, length (SHA256 env x) = 32) ->
    length (DoubleHashOfString env str) = 32
    /\ (str = [] -> DoubleHashOfString env str = zeros 32)
    /\ (str <> [] ->
        DoubleHashOfString env str = SHA256 env (SHA256 env str)).
Proof.
  intros env str Hsha.
  split; [now apply DoubleHashOfString_length|].
  split.
  - intros ->. reflexivity.
  - intros Hne. unfold DoubleHashOfString.
    destruct str as [|b str]; [now elim Hne|].
    cbn [length Nat.eqb].
    assert (Hcopy : forall x, memcpy (zeros 32) (SHA256 env x) 32
                              = SHA256 env x).
    { intros x. rewrite memcpy_prefix by (rewrite zeros_length; lia).
      apply firstn_all2. rewrite Hsha. lia. }
    now rewrite !Hcopy.
Qed.

(** X22 on the label of the paper-key envelope. *)
Lemma X22_DoubleHashOfString_value_witness :
  DoubleHashOfString toy label_paperkey
    = SHA256 toy (SHA256 toy label_paperkey).
Proof.
  apply (@X22_DoubleHashOfString_value toy label_paperkey).
  - intros x. apply fit_length.
  - discriminate.
Defined.

(** X23: [Unlock] and [Lock] begin with [SetCrypted], so on a store that
    is not encrypted they return false and change nothing when it holds
    plaintext keys, and they turn it into an encrypted store when it holds
    none: [Unlock] then returns false all the same (there is no record to
    decrypt), and the store, now encrypted and without a master key, no
    longer accepts [AddKeyPubKey]. *)
Theorem X23_Unlock_on_plain_store :
  forall (env : Collaborators) (s : CCryptoKeyStore) (m : CKeyingMaterial),
    fUseCrypto s = false ->
    (mapKeys s <> [] ->
     Unlock env s m = Returned (false, s) /\ Lock s = (false, s))
    /\ (mapKeys s = [] -> mapCryptedKeys s = [] -> vMasterKey s = [] ->
        Unlock env s m = Returned (false, set_fUseCrypto s true)
        /\ IsLocked (set_fUseCrypto s true) = true
        /\ forall key pub,
             AddKeyPubKey env (set_fUseCrypto s true) key pub
               = (false, set_fUseCrypto s true)).
Proof.
  intros env s m Hc. split.
  - intros Hk. unfold Unlock, Lock, SetCrypted. rewrite Hc.
    destruct (mapKeys s); [now elim Hk|]. split; reflexivity.
  - intros Hk Hmap Hm.
    assert (HL : IsLocked (set_fUseCrypto s true) = true).
    { unfold IsLocked, IsCrypted. cbn. now rewrite Hm. }
    split; [|split; [exact HL|]].
    + unfold Unlock, SetCrypted. rewrite Hc, Hk. cbn [map_empty negb].
      cbn [mapCryptedKeys set_fUseCrypto]. rewrite Hmap. reflexivity.
    + intros key pub. now apply locked_refuses.
Qed.

(** X23 on a new store. *)
Lemma X23_Unlock_on_plain_store_witness :
  Unlock toy CCryptoKeyStore_new master0
    = Returned (false, set_fUseCrypto CCryptoKeyStore_new true)
  /\ AddKeyPubKey toy (set_fUseCrypto CCryptoKeyStore_new true) key1 pub1
     = (false, set_fUseCrypto CCryptoKeyStore_new true).
Proof.
  destruct (@X23_Unlock_on_plain_store toy CCryptoKeyStore_new master0
              eq_refl) as [_ H].
  destruct (H eq_refl eq_refl eq_refl) as (Hu & _ & Ha).
  split; [exact Hu | apply Ha].
Defined.

(** X10 on the sample store with two plaintext keys, which [SetCrypted]
    refuses to promote. *)
Lemma X10_SetCrypted_promotion_witness :
  fst (SetCrypted store_two_keys) = false
  /\ snd (SetCrypted store_two_keys) = store_two_keys.
Proof.
  destruct (X10_SetCrypted_promotion store_two_keys) as (Hiff & Hsame & _).
  assert (Hf : fst (SetCrypted store_two_keys) = false).
  { apply Hiff. split; [reflexivity | discriminate]. }
  split; [exact Hf | exact (Hsame Hf)].
Defined.

(** X11 on the reopened sample store. *)
Lemma X11_Lock_clears_master_key_witness :
  IsLocked (snd (Lock store_reopened)) = true
  /\ vMasterKey (snd (Lock store_reopened)) = [].
Proof.
  destruct (@X11_Lock_clears_master_key toy store_reopened)
    as (_ & _ & H).
  destruct (H eq_refl) as (Hl & Hm & _).
  split; [exact Hl | exact Hm].
Defined.

(** X19 on the reopened sample store and on the same store locked. *)
Lemma X19_crypted_blob_accessors_witness :
  GetCryptedPaperKey (snd (AddCryptedPaperKey store_reopened (zeros 16)))
    = Some (zeros 16)
  /\ GetCryptedPinCode
       (snd (AddCryptedPinCode (snd (Lock store_reopened)) (zeros 16)))
     = None.
Proof.
  split.
  - destruct (X19_crypted_blob_accessors store_reopened (zeros 16))
      as (_ & _ & _ & H).
    destruct (H eq_refl) as (_ & _ & Hp & _). exact Hp.
  - destruct (X19_crypted_blob_accessors (snd (Lock store_reopened))
                (zeros 16)) as (_ & _ & _ & H).
    destruct (H eq_refl) as (_ & _ & _ & Hq). exact Hq.
Defined.
